(** * DogBot: pin claims, PWM/DMA channel allocation and actuator models

    A shallow embedding of [utility.py], [io_controller.py] and
    [Config.get_vars] of [config.py].

    Python objects that the program mutates (the [Config] object, the
    [OutputController], the driver) live in one explicit [World] that every
    operation threads through; a raised exception keeps the mutations made
    before it, as in Python.  Dictionaries whose iteration order the code
    relies on are insertion-ordered association lists, the others are
    [gmap]s.  Numeric actuator values are exact rationals: Python compares
    ints and finite floats by their exact value, so the validation guards are
    modelled exactly; rounding of float arithmetic is not modelled. *)

From Stdlib Require Import ZArith QArith Qround String Ascii DecimalString.
From stdpp Require Import gmap strings list.

Local Open Scope Z_scope.

(** ** Exceptions *)

(** The exceptions the code can raise, one constructor per raise site or
    per kind of failing primitive, named after the error kinds of the
    specification where it names them. *)
Inductive exn :=
| PinAlreadyClaimed (pin : Z)
    (* AttributeError('pin {} already claimed') *)
| NoChannelAvailable
    (* RuntimeError('no available dma channel') *)
| ChannelBindingInconsistency (update_cycle : option Z)
    (* AttributeError('inconsistency between update_channels and ...') *)
| InvalidAngle       (* ValueError('angle must be between 0 and range') *)
| InvalidSpeed       (* ValueError('speed must be between -1 and 1') *)
| InvalidBrightness  (* ValueError('brightness must be between 0 and 100') *)
| NoAttribute (attr : string)
    (* AttributeError: the object has no such attribute *)
| CantSetAttribute (attr : string)
    (* AttributeError: assignment to a property without a setter *)
| MissingKey         (* KeyError: subscript of a dict with an absent key *)
| IndexOutOfRange    (* IndexError: subscript of a list out of range *)
| EmptySequence      (* ValueError: max() or min() of an empty sequence *)
| ArgumentCount      (* TypeError: wrong number of positional arguments *)
| BadOperand         (* TypeError: operand of the wrong type *)
| ZeroDivision       (* ZeroDivisionError *)
| RecursionLimit.    (* RecursionError *)

Inductive exn_class :=
| AttributeError | RuntimeError | ValueError | TypeError
| KeyError | IndexError | ZeroDivisionError | RecursionError.

#[global] Instance exn_class_eq_dec : EqDecision exn_class.
Proof. solve_decision. Defined.

Definition class_of (e : exn) : exn_class :=
  match e with
  | PinAlreadyClaimed _ | ChannelBindingInconsistency _
  | NoAttribute _ | CantSetAttribute _ => AttributeError
  | NoChannelAvailable => RuntimeError
  | InvalidAngle | InvalidSpeed | InvalidBrightness
  | EmptySequence => ValueError
  | MissingKey => KeyError
  | IndexOutOfRange => IndexError
  | ArgumentCount | BadOperand => TypeError
  | ZeroDivision => ZeroDivisionError
  | RecursionLimit => RecursionError
  end.

Inductive result (A : Type) :=
| Ok (a : A)
| Raise (e : exn).
Arguments Ok {A} a.
Arguments Raise {A} e.

Definition is_ok {A} (r : result A) : bool :=
  match r with Ok _ => true | Raise _ => false end.

(** ** Computations that mutate a store and may raise *)

Definition SE (S A : Type) : Type := S -> result A * S.

Definition ret {S A} (a : A) : SE S A := fun s => (Ok a, s).
Definition raise {S A} (e : exn) : SE S A := fun s => (Raise e, s).
Definition bind {S A B} (m : SE S A) (k : A -> SE S B) : SE S B :=
  fun s => match m s with
           | (Ok a, s') => k a s'
           | (Raise e, s') => (Raise e, s')
           end.
Definition gets {S A} (f : S -> A) : SE S A := fun s => (Ok (f s), s).
Definition modify {S} (f : S -> S) : SE S unit := fun s => (Ok tt, f s).
Definition lift {S A} (r : result A) : SE S A := fun s => (r, s).

(** [try: body except (classes): handler] *)
Definition try_except {S A} (body : SE S A) (classes : list exn_class)
    (handler : SE S A) : SE S A :=
  fun s => match body s with
           | (Ok a, s') => (Ok a, s')
           | (Raise e, s') =>
               if bool_decide (class_of e ∈ classes) then handler s'
               else (Raise e, s')
           end.

Notation "'let!' x ':=' m 'in' k" := (bind m (fun x => k))
  (at level 10, x pattern, m at level 100, k at level 200).
Notation "m ';;!' k" := (bind m (fun _ => k))
  (at level 100, k at level 200, right associativity).

(** ** Python values *)

(** [RPIO.PWM.Servo(channel, update_cycle)]: the driver's servo-channel
    object, here the two constructor arguments it is built from. *)
Record PWMServo := mkPWMServo {
  dma_channel : Z;
  subcycle_time_us : option Z
}.

(** The values that are passed around dynamically.  [VConfig],
    [VController] and [VSelf] are references to the one [Config] object, the
    one [OutputController] and the object a method runs on. *)
Inductive value :=
| VNone
| VBool (b : bool)
| VInt (n : Z)
| VNum (q : Q)
| VStr (s : string)
| VSeq (l : list Q)
| VChannel (c : PWMServo)
| VConfig
| VController
| VSelf.

(** The numeric reading of a value, for [==], [<], [+] and [/]. *)
Definition as_num (v : value) : option Q :=
  match v with
  | VBool b => Some (if b then 1 else 0)%Q
  | VInt n => Some (inject_Z n)
  | VNum q => Some q
  | _ => None
  end.

Definition Qlt_bool (x y : Q) : bool := negb (Qle_bool y x).

(** Python's [==] on the values above: numbers by value, strings and
    sequences by content, everything else by identity. *)
Definition py_eq (v w : value) : bool :=
  match as_num v, as_num w with
  | Some x, Some y => Qeq_bool x y
  | _, _ =>
    match v, w with
    | VNone, VNone | VConfig, VConfig
    | VController, VController | VSelf, VSelf => true
    | VStr s, VStr t => bool_decide (s = t)
    | VSeq l, VSeq k =>
        bool_decide (length l = length k)
        && forallb (fun p => Qeq_bool p.1 p.2) (zip l k)
    | VChannel c, VChannel d =>
        bool_decide (dma_channel c = dma_channel d
                     ∧ subcycle_time_us c = subcycle_time_us d)
    | _, _ => false
    end
  end.

(** [v in (a, b, c)] *)
Definition py_in (v : value) (l : list value) : bool := existsb (py_eq v) l.

(** ** The world: configuration, controller and driver *)

(** [config.Config]: the pin-claim table, the verbosity flag (its truth
    value) and the reserved channel ids. *)
Record Config := mkConfig {
  used_pins : gmap Z string;
  echo : bool;
  reserved_channels : list Z
}.

(** Calls made to the driver ([RPIO]) that leave a trace. *)
Inductive rpio_call :=
| RPIO_setmode (mode : Z)
| RPIO_setup (pin mode : Z).

(** Diagnostics emitted through [warnings.warn]. *)
Inductive warning :=
| ReplacingServoChannel (update_cycle : option Z)
| ReleaseUnclaimedPin.

(** An object is its instance dictionary. *)
Abbreviation obj := (gmap string value).

(** The [OutputController] with its five dictionaries, the [Config] it
    refers to, and the traces of the driver and of [warnings].
    [update_channels] keeps insertion order, which [new_led] and
    [get_servo_channel] read through [list(...keys())[0]]; its keys are the
    update cycles, [None] included. *)
Record World := mkWorld {
  update_channels : list (option Z * Z);
  channel_servos : gmap Z PWMServo;
  servos : gmap string obj;
  actuators : gmap string obj;
  leds : gmap string obj;
  config : Config;
  rpio : list rpio_call;
  warned : list warning
}.

Definition set_update_channels (f : list (option Z * Z) -> list (option Z * Z))
    (w : World) : World :=
  mkWorld (f (update_channels w)) (channel_servos w) (servos w) (actuators w)
          (leds w) (config w) (rpio w) (warned w).
Definition set_channel_servos (f : gmap Z PWMServo -> gmap Z PWMServo)
    (w : World) : World :=
  mkWorld (update_channels w) (f (channel_servos w)) (servos w) (actuators w)
          (leds w) (config w) (rpio w) (warned w).
Definition set_servos (f : gmap string obj -> gmap string obj)
    (w : World) : World :=
  mkWorld (update_channels w) (channel_servos w) (f (servos w)) (actuators w)
          (leds w) (config w) (rpio w) (warned w).
Definition set_leds (f : gmap string obj -> gmap string obj)
    (w : World) : World :=
  mkWorld (update_channels w) (channel_servos w) (servos w) (actuators w)
          (f (leds w)) (config w) (rpio w) (warned w).
Definition set_used_pins (f : gmap Z string -> gmap Z string)
    (w : World) : World :=
  mkWorld (update_channels w) (channel_servos w) (servos w) (actuators w)
          (leds w)
          (mkConfig (f (used_pins (config w))) (echo (config w))
                    (reserved_channels (config w)))
          (rpio w) (warned w).
Definition driver_call (c : rpio_call) (w : World) : World :=
  mkWorld (update_channels w) (channel_servos w) (servos w) (actuators w)
          (leds w) (config w) (rpio w ++ [c]) (warned w).
Definition warn (x : warning) (w : World) : World :=
  mkWorld (update_channels w) (channel_servos w) (servos w) (actuators w)
          (leds w) (config w) (rpio w) (warned w ++ [x]).

Abbreviation M := (SE World).

(** ** Insertion-ordered dictionaries *)

Section Dict.
Context {K V : Type} `{EqDecision K}.

(** [d[k]], [None] standing for [KeyError]. *)
Fixpoint dict_get (k : K) (d : list (K * V)) : option V :=
  match d with
  | [] => None
  | (k', v) :: d' => if decide (k = k') then Some v else dict_get k d'
  end.

(** [d[k] = v]: an existing key keeps its position, a new key goes last. *)
Fixpoint dict_set (k : K) (v : V) (d : list (K * V)) : list (K * V) :=
  match d with
  | [] => [(k, v)]
  | (k', v') :: d' =>
      if decide (k = k') then (k, v) :: d' else (k', v') :: dict_set k v d'
  end.

(** [list(d.keys())] *)
Definition dict_keys (d : list (K * V)) : list K := map fst d.

End Dict.

(** ** Objects, attributes and numeric operators *)

(** The classes of [io_controller.py] that have instances.  [Servo] and
    [ContinousServo] define [pulse] with [@property] and no setter; [LED]
    defines no property. *)
Inductive pyclass := Servo | ContinousServo | LED.

Definition read_only_properties (c : pyclass) : list string :=
  match c with
  | Servo | ContinousServo => ["pulse"]
  | LED => []
  end.

(** [self.attr = v] on an instance of class [c]: a property of the class
    takes precedence over the instance dictionary, and one without a setter
    refuses the assignment. *)
Definition setattr (c : pyclass) (attr : string) (v : value) : SE obj unit :=
  if bool_decide (attr ∈ read_only_properties c)
  then raise (CantSetAttribute attr)
  else modify <[attr := v]>.

(** [self.attr] for an attribute that is not a property of the class. *)
Definition getattr (attr : string) : SE obj value :=
  fun self => match self !! attr with
              | Some v => (Ok v, self)
              | None => (Raise (NoAttribute attr), self)
              end.

(** A value used as a number. *)
Definition num {S} (v : value) : SE S Q :=
  match as_num v with
  | Some q => ret q
  | None => raise BadOperand
  end.

(** Truth value of a value. *)
Definition truthy (v : value) : bool :=
  match v with
  | VNone => false
  | VBool b => b
  | VInt n => negb (n =? 0)
  | VNum q => negb (Qeq_bool q 0)
  | VStr s => negb (bool_decide (s = ""))
  | VSeq l => negb (bool_decide (l = []))
  | _ => true
  end.

(** [x / y] and [x // y] on numbers *)
Definition py_truediv {S} (x y : Q) : SE S Q :=
  if Qeq_bool y 0 then raise ZeroDivision else ret (x / y)%Q.
Definition py_floordiv {S} (x y : Q) : SE S Q :=
  if Qeq_bool y 0 then raise ZeroDivision
  else ret (inject_Z (Qfloor (x / y)))%Q.

(** [sorted(l)], [max(v)] and [min(v)] *)
Fixpoint insert_sorted (x : Q) (l : list Q) : list Q :=
  match l with
  | [] => [x]
  | y :: l' => if Qlt_bool x y then x :: l else y :: insert_sorted x l'
  end.
Definition sorted (l : list Q) : list Q := foldr insert_sorted [] (reverse l).

Definition Qmax (x y : Q) : Q := if Qlt_bool x y then y else x.
Definition Qmin (x y : Q) : Q := if Qlt_bool y x then y else x.

Definition py_max {S} (v : value) : SE S Q :=
  match v with
  | VSeq [] => raise EmptySequence
  | VSeq (x :: l) => ret (foldl Qmax x l)
  | _ => raise BadOperand
  end.
Definition py_min {S} (v : value) : SE S Q :=
  match v with
  | VSeq [] => raise EmptySequence
  | VSeq (x :: l) => ret (foldl Qmin x l)
  | _ => raise BadOperand
  end.

(** [cls(args)]: run [__init__] on a fresh object; the object exists only
    if [__init__] returns. *)
Definition construct (init : SE obj unit) : result obj :=
  match init ∅ with
  | (Ok _, self) => Ok self
  | (Raise e, _) => Raise e
  end.

(** ** utility.py *)

Section Program.

(** Constants and queries of the driver, which is not part of the
    program: [RPIO.IN], [RPIO.OUT], [RPIO.BOARD] (integers) and the value
    returned by [_PWM.get_pulse_incr_us()]. *)
Context (RPIO_IN RPIO_OUT RPIO_BOARD : Z) (pulse_incr_us : Q).

(** [config.used_pins] for whatever was passed as [config]: only the
    [Config] object has the attribute. *)
Definition attr_used_pins (cfg : value) : M (gmap Z string) :=
  match cfg with
  | VConfig => gets (fun w => used_pins (config w))
  | _ => raise (NoAttribute "used_pins")
  end.

(** [config.echo] *)
Definition attr_echo (cfg : value) : M bool :=
  match cfg with
  | VConfig => gets (fun w => echo (config w))
  | _ => raise (NoAttribute "echo")
  end.

(** [claim_pin(pin, config, io_type, comment)]; [cfg] is the parameter
    [config]. *)
Definition claim_pin (pin : Z) (cfg io_type : value) (comment : string)
    : M unit :=
  let! used := attr_used_pins cfg in
  if bool_decide (pin ∈ dom used) then
    raise (PinAlreadyClaimed pin)
  else
    let mode :=
      if py_in io_type [VStr "in"; VStr "IN"; VInt RPIO_IN]
      then RPIO_IN else RPIO_OUT in
    modify (driver_call (RPIO_setup pin mode)) ;;!
    (* config.used_pins[pin] = comment *)
    attr_used_pins cfg ;;!
    modify (set_used_pins <[pin := comment]>).

(** [release_pin(pin, config)] *)
Definition release_pin (pin : Z) (cfg : value) : M unit :=
  let! used := attr_used_pins cfg in
  if bool_decide (pin ∈ dom used) then
    modify (set_used_pins (delete pin))
  else
    let! e := attr_echo cfg in
    if e then modify (warn ReleaseUnclaimedPin) else ret tt.

(** ** io_controller.py: the actuators *)

(** [ABCServo.__init__(self, controller, name, pin, channel)], applied to
    the positional arguments that follow [self]. *)
Definition ABCServo__init__ (c : pyclass) (args : list value) : SE obj unit :=
  match args with
  | [controller; name; pin; channel] =>
      setattr c "controller" controller ;;!
      setattr c "channel" channel ;;!
      setattr c "name" name ;;!
      setattr c "pin" pin
  | _ => raise ArgumentCount
  end.

(** [ABCServo.update(self)], given the [pulse] property of the subclass.
    [OutputController] defines no [set_servo], so looking the method up
    fails. *)
Definition ABCServo_update (pulse : SE obj value) : SE obj unit :=
  let! p := pulse in
  match p with
  | VNone => ret tt
  | _ => getattr "controller" ;;! raise (NoAttribute "set_servo")
  end.

(** [Servo.__init__] *)
Definition Servo__init__ (controller name pin channel : value)
    (range_of_motion : Q) (pulse : list Q) (reverse : bool) : SE obj unit :=
  ABCServo__init__ Servo [controller; name; pin; channel] ;;!
  setattr Servo "range" (VNum range_of_motion) ;;!
  setattr Servo "pulse" (VSeq (sorted pulse)) ;;!
  setattr Servo "reverse" (VBool reverse) ;;!
  setattr Servo "angle" (VInt 0).

(** The property [Servo.pulse].  Inside its body [self.pulse] is the
    property again, not the bounds; [depth] is the number of nested calls
    the interpreter still allows. *)
Fixpoint Servo_pulse (depth : nat) : SE obj value :=
  match depth with
  | O => raise RecursionLimit
  | S depth =>
      let! angle := getattr "angle" in
      let! angle := num angle in
      let! range := getattr "range" in
      let! range := num range in
      let! position_ratio := py_truediv angle range in
      let! reverse := getattr "reverse" in
      let position_ratio :=
        (position_ratio * (if truthy reverse then -1 else 1))%Q in
      let! p := Servo_pulse depth in
      let! hi := py_max p in
      let! p := Servo_pulse depth in
      let! lo := py_min p in
      let pulse_range := (hi - lo)%Q in
      let pulse_incr := pulse_incr_us in
      let! p := Servo_pulse depth in
      let! lo := py_min p in
      let pulse := (pulse_range * position_ratio + lo)%Q in
      let! pulse := py_floordiv pulse pulse_incr in
      ret (VNum (pulse * pulse_incr)%Q)
  end.

(** [Servo.set(angle)]; the chained comparison stops at its first false
    link. *)
Definition Servo_set (depth : nat) (angle : Q) : SE obj unit :=
  let! inside :=
    if Qlt_bool 0 angle then
      let! range := getattr "range" in
      let! range := num range in
      ret (Qlt_bool angle range)
    else ret false in
  if negb inside then raise InvalidAngle
  else
    setattr Servo "angle" (VNum angle) ;;!
    ABCServo_update (Servo_pulse depth).

(** [Servo.increment(change)] *)
Definition Servo_increment (depth : nat) (change : Q) : SE obj unit :=
  let! angle := getattr "angle" in
  let! angle := num angle in
  Servo_set depth (angle + change)%Q.

(** [ContinousServo.__init__]: the parent initialiser is called with [self]
    as an extra first argument. *)
Definition ContinousServo__init__ (controller name pin channel pulse : value)
    (reverse : value) : SE obj unit :=
  ABCServo__init__ ContinousServo [VSelf; controller; name; pin; channel] ;;!
  setattr ContinousServo "reverse" reverse ;;!
  setattr ContinousServo "speed" (VInt 0).

(** [ContinousServo.set(speed)] *)
Definition ContinousServo_set (speed : Q) : SE obj unit :=
  if negb (Qlt_bool (-1) speed && Qlt_bool speed 1) then raise InvalidSpeed
  else setattr ContinousServo "speed" (VNum speed).

(** [ContinousServo.increment(change)] *)
Definition ContinousServo_increment (change : Q) : SE obj unit :=
  let! speed := getattr "speed" in
  let! speed := num speed in
  ContinousServo_set (speed + change)%Q.

(** The property [ContinousServo.pulse]; as in [Servo], [self.pulse] is the
    property itself. *)
Fixpoint ContinousServo_pulse (depth : nat) : SE obj value :=
  match depth with
  | O => raise RecursionLimit
  | S depth =>
      let! p := ContinousServo_pulse depth in
      let! lo := py_min p in
      let! p := ContinousServo_pulse depth in
      let! hi := py_max p in
      let zero_pulse := ((lo + hi) / 2)%Q in
      let! p := ContinousServo_pulse depth in
      let! hi := py_max p in
      let! p := ContinousServo_pulse depth in
      let! lo := py_min p in
      let pulse_range := (hi - lo)%Q in
      let! speed := getattr "speed" in
      let! speed := num speed in
      ret (VNum (zero_pulse + speed * pulse_range / 2)%Q)
  end.

(** [LED.__init__] *)
Definition LED__init__ (name pin channel : value) : SE obj unit :=
  setattr LED "name" name ;;!
  setattr LED "pin" pin ;;!
  setattr LED "channel" channel ;;!
  setattr LED "brightness" (VInt 0).

(** [LED.set(brightness)] *)
Definition LED_set (brightness : Q) : SE obj unit :=
  if negb (Qlt_bool 0 brightness && Qlt_bool brightness 100)
  then raise InvalidBrightness
  else setattr LED "brightness" (VNum brightness).

(** ** io_controller.py: the controller *)

(** [OutputController.__init__(config)] *)
Definition OutputController__init__ (cfg : Config) : World :=
  driver_call (RPIO_setmode RPIO_BOARD) (mkWorld [] ∅ ∅ ∅ ∅ cfg [] []).

(** [d[k]] and [l[i]] as the interpreter evaluates them *)
Definition subscript {S K V} `{EqDecision K} (d : list (K * V)) (k : K)
    : SE S V :=
  match dict_get k d with Some v => ret v | None => raise MissingKey end.
Definition subscript_map {S V} (d : gmap Z V) (k : Z) : SE S V :=
  match d !! k with Some v => ret v | None => raise MissingKey end.
Definition index {S A} (l : list A) (i : nat) : SE S A :=
  match l !! i with Some a => ret a | None => raise IndexOutOfRange end.

(** [get_dma_channel(self)]; the result [None] is Python's [None]. *)
Definition get_dma_channel : M (option Z) :=
  let! reserved := gets (fun w => reserved_channels (config w)) in
  let! channel_servos := gets channel_servos in
  let available :=
    filter (fun x => (x ∉ reserved) ∧ (channel_servos !! x = None))
           (seqZ 0 15) in
  match available with
  | c :: _ => ret (Some c)
  | [] => ret None
  end.

(** [new_dma_channel(self, update_cycle=None, channel=None)] *)
Definition new_dma_channel (update_cycle channel : option Z) : M Z :=
  let! bound := gets update_channels in
  (if bool_decide (update_cycle ∈ dict_keys bound) then
     let! e := attr_echo VConfig in
     if e then modify (warn (ReplacingServoChannel update_cycle)) else ret tt
   else ret tt) ;;!
  let! channel :=
    match channel with
    | None =>
        let! channel := get_dma_channel in
        match channel with
        | None => raise NoChannelAvailable
        | Some c => ret c
        end
    | Some c => ret c
    end in
  modify (set_update_channels (dict_set update_cycle channel)) ;;!
  ret channel.

(** [new_servo_channel(self, update_cycle, channel=None)] *)
Definition new_servo_channel (update_cycle channel : option Z) : M PWMServo :=
  let! channel := new_dma_channel update_cycle channel in
  let new_servo_channel := mkPWMServo channel update_cycle in
  modify (set_channel_servos <[channel := new_servo_channel]>) ;;!
  ret new_servo_channel.

(** [get_servo_channel(self, update_cycle=None)] *)
Definition get_servo_channel (update_cycle : option Z) : M PWMServo :=
  try_except
    (let! update_channels := gets update_channels in
     let! channel_servos := gets channel_servos in
     match update_cycle with
     | None =>
         let! first := index (dict_keys update_channels) 0 in
         let! c := subscript update_channels first in
         subscript_map channel_servos c
     | Some _ =>
         let! c := subscript update_channels update_cycle in
         subscript_map channel_servos c
     end)
    [KeyError; IndexError]
    (let! channel_servos := gets channel_servos in
     let absent :=
       match update_cycle with
       | None => true
       | Some u => bool_decide (channel_servos !! u = None)
       end in
     if absent then new_servo_channel update_cycle None
     else raise (ChannelBindingInconsistency update_cycle)).

(** [new_servo(self, name, pin, update=20000, range_of_motion=90,
    pulse=(1.0, 2.0), reverse=False)].  The call of [claim_pin] passes
    [RPIO.OUT] where [claim_pin] expects the configuration and the
    configuration where it expects the direction. *)
Definition new_servo (name : string) (pin : Z) (update : option Z)
    (range_of_motion : Q) (pulse : list Q) (reverse : bool) : M obj :=
  let! channel := get_servo_channel update in
  claim_pin pin (VInt RPIO_OUT) VConfig ("servo " ++ name) ;;!
  let! servo :=
    lift (construct (Servo__init__ VController (VStr name) (VInt pin)
                       (VChannel channel) range_of_motion pulse reverse)) in
  modify (set_servos <["name" := servo]>) ;;!
  ret servo.

(** [new_continuous_servo(self, name, pin, pulse, reverse=False)]; the
    constructor is called without the controller, so every argument lands
    one parameter early. *)
Definition new_continuous_servo (name : string) (pin : Z) (pulse : list Q)
    (reverse : bool) : M obj :=
  let! channel := get_servo_channel None in
  claim_pin pin (VInt RPIO_OUT) VConfig ("continuous servo " ++ name) ;;!
  let! servo :=
    lift (construct (ContinousServo__init__ (VStr name) (VInt pin)
                       (VChannel channel) (VSeq pulse) (VBool reverse)
                       (VBool false))) in
  modify (set_servos <["name" := servo]>) ;;!
  ret servo.

(** [new_led(self, name, pin)] *)
Definition new_led (name : string) (pin : Z) : M obj :=
  let! update_channels := gets update_channels in
  let! channel :=
    match update_channels with
    | _ :: _ =>
        let! first := index (dict_keys update_channels) 0 in
        subscript update_channels first
    | [] => new_dma_channel None None
    end in
  claim_pin pin (VInt RPIO_OUT) VConfig ("led " ++ name) ;;!
  let! led :=
    lift (construct (LED__init__ (VStr name) (VInt pin) (VInt channel))) in
  modify (set_leds <["name" := led]>) ;;!
  ret led.

(** ** Worlds the examples start from *)

(** A configuration with the given reserved channels, no claimed pin and
    diagnostics off, and the controller built on it. *)
Definition example_config (reserved : list Z) : Config :=
  mkConfig ∅ false reserved.
Definition fresh (reserved : list Z) : World :=
  OutputController__init__ (example_config reserved).

(** The ids [get_dma_channel] chooses from: its local [available]. *)
Definition available (w : World) : list Z :=
  filter (fun x => (x ∉ reserved_channels (config w))
                   ∧ (channel_servos w !! x = None))
         (seqZ 0 15).

(** [x] is an id of the driver's range that is neither reserved nor the
    key of a servo channel. *)
Definition free (w : World) (x : Z) : Prop :=
  0 <= x < 15
  ∧ (x ∉ reserved_channels (config w))
  ∧ channel_servos w !! x = None.

(** What the [try] block of [get_servo_channel] returns, if it returns:
    the servo channel of the cycle's channel id, the cycle being the first
    key when none is given. *)
Definition bound_servo_channel (update_cycle : option Z) (w : World)
    : option PWMServo :=
  key ← match update_cycle with
        | None => head (dict_keys (update_channels w))
        | Some _ => Some update_cycle
        end;
  c ← dict_get key (update_channels w);
  channel_servos w !! c.

(** The world in which [new_dma_channel] goes on after its diagnostic. *)
Definition after_warning (update_cycle : option Z) (w : World) : World :=
  if bool_decide (update_cycle ∈ dict_keys (update_channels w))
  then (if echo (config w)
        then warn (ReplacingServoChannel update_cycle) w else w)
  else w.

(** One call of [new_servo_channel(update_cycle)] per element, in order;
    every call's outcome is kept. *)
Fixpoint allocate_all (cycles : list (option Z)) (w : World)
    : list (result PWMServo) * World :=
  match cycles with
  | [] => ([], w)
  | u :: cycles' =>
      let (r, w') := new_servo_channel u None w in
      let (rs, w'') := allocate_all cycles' w' in
      (r :: rs, w'')
  end.

(** One call of [get_servo_channel(update_cycle)] per element, in order. *)
Fixpoint request_all (cycles : list Z) (w : World)
    : list (result PWMServo) * World :=
  match cycles with
  | [] => ([], w)
  | u :: cycles' =>
      let (r, w') := get_servo_channel (Some u) w in
      let (rs, w'') := request_all cycles' w' in
      (r :: rs, w'')
  end.

(** The states of the controller a client can bring about: a controller
    built on some configuration, then any calls of the three actuator
    constructors and of [get_servo_channel], whether they return or raise. *)
Inductive reachable : World -> Prop :=
| reachable_init (cfg : Config) :
    reachable (OutputController__init__ cfg)
| reachable_new_servo (w : World) name pin update range_of_motion pulse
    reverse :
    reachable w ->
    reachable
      (snd (new_servo name pin update range_of_motion pulse reverse w))
| reachable_new_continuous_servo (w : World) name pin pulse reverse :
    reachable w ->
    reachable (snd (new_continuous_servo name pin pulse reverse w))
| reachable_new_led (w : World) name pin :
    reachable w -> reachable (snd (new_led name pin w))
| reachable_get_servo_channel (w : World) update_cycle :
    reachable w -> reachable (snd (get_servo_channel update_cycle w)).

(** [w'] has the channel bookkeeping of [w]. *)
Definition same_channels (w w' : World) : Prop :=
  update_channels w' = update_channels w
  ∧ channel_servos w' = channel_servos w
  ∧ reserved_channels (config w') = reserved_channels (config w).

(** What one call can do to the channel bookkeeping: nothing, bind a
    cycle to the lowest free id together with a servo channel for it, or
    bind the key [None] to the lowest free id without a servo channel. *)
Inductive channel_step (w w' : World) : Prop :=
| step_same :
    same_channels w w' -> channel_step w w'
| step_servo_channel (u : option Z) (c : Z) :
    head (available w) = Some c ->
    update_channels w' = dict_set u c (update_channels w) ->
    channel_servos w' = <[c := mkPWMServo c u]> (channel_servos w) ->
    reserved_channels (config w') = reserved_channels (config w) ->
    channel_step w w'
| step_bare_channel (c : Z) :
    head (available w) = Some c ->
    update_channels w' = dict_set None c (update_channels w) ->
    channel_servos w' = channel_servos w ->
    reserved_channels (config w') = reserved_channels (config w) ->
    channel_step w w'.

(** The bookkeeping invariant of reachable states. *)
Record consistent (w : World) : Prop := mkConsistent {
  cycle_has_servo_channel :
    ∀ (u c : Z), dict_get (Some u) (update_channels w) = Some c ->
                 is_Some (channel_servos w !! c);
  servo_channel_id :
    ∀ (c : Z) (ch : PWMServo), channel_servos w !! c = Some ch ->
                               dma_channel ch = c;
  bound_id_allowed :
    ∀ (k : option Z) (c : Z), dict_get k (update_channels w) = Some c ->
                              0 <= c < 15 ∧ c ∉ reserved_channels (config w);
  cycles_apart :
    ∀ (u1 u2 c : Z),
      dict_get (Some u1) (update_channels w) = Some c ->
      dict_get (Some u2) (update_channels w) = Some c -> u1 = u2
}.

(** Calls a client makes on an actuator, and the object after a series of
    them; a call that raises leaves the object as it was when the exception
    left the method, and the client goes on. *)
Inductive call :=
| CallSet (v : Q)
| CallIncrement (change : Q).

Definition Servo_call (depth : nat) (c : call) : SE obj unit :=
  match c with
  | CallSet v => Servo_set depth v
  | CallIncrement change => Servo_increment depth change
  end.

Definition ContinousServo_call (c : call) : SE obj unit :=
  match c with
  | CallSet v => ContinousServo_set v
  | CallIncrement change => ContinousServo_increment change
  end.

Fixpoint run_calls {A} (method : A -> SE obj unit) (calls : list A)
    (self : obj) : obj :=
  match calls with
  | [] => self
  | c :: calls' => run_calls method calls' (snd (method c self))
  end.

(** The attribute [attr] of [self] holds a number strictly between [lo]
    and [hi]. *)
Definition strictly_inside (lo hi : Q) (attr : string) (self : obj) : Prop :=
  ∃ v : Q, self !! attr = Some (VNum v) ∧ (lo < v)%Q ∧ (v < hi)%Q.

(** ** The rest of the program *)

(** Two more things the driver and the interpreter provide:
    [RPIO.PWM.get_channel_subcycle_time_us(channel)], which may raise, and
    the builtin [int] on strings, [None] where it raises [ValueError].
    [RPIO.PWM.get_pulse_incr_us()] is the [pulse_incr_us] above. *)
Context (get_channel_subcycle_time_us : value -> result Q)
        (py_int : string -> option Z).

(** Calls of [RPIO.PWM] that program pulses. *)
Inductive pwm_call :=
| PWM_clear_channel_gpio (channel pin : value)
| PWM_add_channel_pulse (channel pin : value) (start : Z) (width : Q).

(** [self.attr] read by a method that leaves [self] alone. *)
Definition attr_of {S} (self : obj) (attr : string) : SE S value :=
  lift (fst (getattr attr self)).

(** [LED.update(self)]; the store is the trace of the PWM driver. *)
Definition LED_update (self : obj) : SE (list pwm_call) unit :=
  let! channel := attr_of self "channel" in
  let! subcycle_time := lift (get_channel_subcycle_time_us channel) in
  let granularity := pulse_incr_us in
  let! brightness := attr_of self "brightness" in
  let! brightness := num brightness in
  let! ratio := py_truediv brightness 100 in
  let! pulse_width := py_truediv (ratio * subcycle_time) granularity in
  let! channel := attr_of self "channel" in
  let! pin := attr_of self "pin" in
  modify (fun trace => trace ++ [PWM_clear_channel_gpio channel pin]) ;;!
  let! channel := attr_of self "channel" in
  let! pin := attr_of self "pin" in
  modify (fun trace =>
            trace ++ [PWM_add_channel_pulse channel pin 0 pulse_width]).

(** [s.split(sep)] for a separator of one character. *)
Fixpoint py_split (sep : Ascii.ascii) (s : string) : list string :=
  match s with
  | EmptyString => [EmptyString]
  | String c s' =>
      if bool_decide (c = sep) then EmptyString :: py_split sep s'
      else match py_split sep s' with
           | [] => [String c EmptyString]
           | x :: fields => String c x :: fields
           end
  end.

(** What [Config.get_vars] can raise on the option values: [int] refuses
    the text, or a field has no second part. *)
Inductive config_error :=
| InvalidLiteral (text : string)
    (* ValueError: invalid literal for int() with base 10 *)
| FieldIndexError.
    (* IndexError: list index out of range *)

(** [{int(x.split(':')[0]): x.split(':')[1] for x in used_pins if x != ''}]
    of [Config.get_vars]: the key is evaluated before the value, and [d] is
    the dictionary built so far. *)
Fixpoint used_pins_entries (fields : list string) (d : gmap Z string)
    : config_error + gmap Z string :=
  match fields with
  | [] => inr d
  | x :: fields' =>
      if bool_decide (x ≠ EmptyString) then
        match py_split ":"%char x !! 0%nat with
        | None => inl FieldIndexError
        | Some first =>
            match py_int first with
            | None => inl (InvalidLiteral first)
            | Some key =>
                match py_split ":"%char x !! 1%nat with
                | None => inl FieldIndexError
                | Some comment =>
                    used_pins_entries fields' (<[key := comment]> d)
                end
            end
        end
      else used_pins_entries fields' d
  end.

(** [[int(x) for x in reserved_channels if x != '']]; [l] is the list built
    so far. *)
Fixpoint reserved_entries (fields : list string) (l : list Z)
    : config_error + list Z :=
  match fields with
  | [] => inr l
  | x :: fields' =>
      if bool_decide (x ≠ EmptyString) then
        match py_int x with
        | None => inl (InvalidLiteral x)
        | Some channel => reserved_entries fields' (l ++ [channel])
        end
      else reserved_entries fields' l
  end.

(** [Config.get_vars(self)], from the three option values that
    [configparser] hands it: [used_pins], [reserved_channels] and [echo].
    The [Config] above keeps of [echo] its truth value. *)
Definition get_vars (used_pins reserved_channels echo : string)
    : config_error + Config :=
  match used_pins_entries (py_split ","%char used_pins) ∅ with
  | inl e => inl e
  | inr pins =>
      match reserved_entries (py_split ","%char reserved_channels) [] with
      | inl e => inl e
      | inr reserved => inr (mkConfig pins (truthy (VStr echo)) reserved)
      end
  end.

(** One call of the client interface of the controller, whatever its
    arguments and whether it returns or raises. *)
Inductive api_step (w : World) : World -> Prop :=
| api_new_servo name pin update range_of_motion pulse reverse :
    api_step w
      (snd (new_servo name pin update range_of_motion pulse reverse w))
| api_new_continuous_servo name pin pulse reverse :
    api_step w (snd (new_continuous_servo name pin pulse reverse w))
| api_new_led name pin :
    api_step w (snd (new_led name pin w))
| api_get_servo_channel update_cycle :
    api_step w (snd (get_servo_channel update_cycle w)).

(** One call of [new_dma_channel(update_cycle)] per element, in order. *)
Fixpoint bind_all (cycles : list (option Z)) (w : World)
    : list (result Z) * World :=
  match cycles with
  | [] => ([], w)
  | u :: cycles' =>
      let (r, w') := new_dma_channel u None w in
      let (rs, w'') := bind_all cycles' w' in
      (r :: rs, w'')
  end.

(** A channel bound under the key [None] without a servo channel is the
    one the allocator would pick next. *)
Definition bare_channel_is_next (w : World) : Prop :=
  ∀ c, dict_get None (update_channels w) = Some c ->
       is_Some (channel_servos w !! c) ∨ head (available w) = Some c.

(** The parts of the world that no call of the interface touches: the
    configuration, the driver's trace and the three registries. *)
Definition untouched (w w' : World) : Prop :=
  config w' = config w ∧ rpio w' = rpio w ∧ servos w' = servos w
  ∧ leds w' = leds w ∧ actuators w' = actuators w.

(** A field of the [used_pins] text that [get_vars] accepts as the entry
    [(pin, comment)]. *)
Definition field_entry (x : string) (pin : Z) (comment : string) : Prop :=
  x ≠ EmptyString
  ∧ ∃ first rest,
      py_split ":" x = first :: comment :: rest ∧ py_int first = Some pin.

(** The instance of [int] used in the examples: the plain decimal numerals,
    digits after an optional [-].  ([int] also accepts a [+], surrounding
    blanks and underscores between digits, which the examples do not
    use.) *)
Definition decimal_int (s : string) : option Z :=
  option_map Z.of_int (NilZero.int_of_string s).

(** * Properties *)

(** ** Dictionaries *)

Lemma dict_get_set_eq {K V} `{EqDecision K} (k : K) (v : V)
    (d : list (K * V)) :
  dict_get k (dict_set k v d) = Some v.
Proof.
  induction d as [|[k' v'] d IH]; simpl.
  - by rewrite decide_True.
  - destruct (decide (k = k')) as [->|Hne]; simpl.
    + by rewrite decide_True.
    + by rewrite decide_False.
Qed.

Lemma dict_get_set_ne {K V} `{EqDecision K} (k k' : K) (v : V)
    (d : list (K * V)) :
  k ≠ k' -> dict_get k' (dict_set k v d) = dict_get k' d.
Proof.
  intros Hne. induction d as [|[k0 v0] d IH]; simpl.
  - by rewrite decide_False.
  - destruct (decide (k = k0)) as [->|Hne0]; simpl.
    + by rewrite !decide_False.
    + destruct (decide (k' = k0)); [done | apply IH].
Qed.

(** ** The allocator *)

Lemma head_filter_seqZ (P : Z -> Prop) `{!∀ x, Decision (P x)} (n : nat)
    (m c : Z) :
  head (filter P (seqZ m (Z.of_nat n))) = Some c
  <-> m <= c < m + Z.of_nat n ∧ P c ∧ ∀ x, m <= x < c -> ¬ P x.
Proof.
  revert m. induction n as [|n IH]; intros m.
  - simpl. split; [done | lia].
  - rewrite seqZ_cons by lia.
    replace (Z.pred (Z.of_nat (S n))) with (Z.of_nat n) by lia.
    rewrite filter_cons. destruct (decide (P m)) as [Hm|Hm].
    + simpl. split.
      * intros [= <-]. split; [lia|]. split; [done|]. intros; lia.
      * intros (Hc & HP & Hlow). f_equal.
        destruct (decide (m = c)) as [|Hne]; [done|].
        exfalso. apply (Hlow m); [lia | done].
    + rewrite IH. split.
      * intros (Hc & HP & Hlow). split; [lia|]. split; [done|].
        intros x Hx. destruct (decide (x = m)) as [->|]; [done|].
        apply Hlow. lia.
      * intros (Hc & HP & Hlow).
        assert (m ≠ c) by (intros ->; done).
        split; [lia|]. split; [done|]. intros x Hx. apply Hlow. lia.
Qed.

Lemma head_filter_seqZ_None (P : Z -> Prop) `{!∀ x, Decision (P x)}
    (m n : Z) :
  head (filter P (seqZ m n)) = None <-> ∀ x, m <= x < m + n -> ¬ P x.
Proof.
  split.
  - intros Hhd x Hx HP.
    assert (x ∈ filter P (seqZ m n)) as Hin.
    { apply list_elem_of_filter. split; [done|]. apply elem_of_seqZ. lia. }
    destruct (filter P (seqZ m n)); [by apply elem_of_nil in Hin | done].
  - intros Hnone. destruct (filter P (seqZ m n)) as [|c l] eqn:E; [done|].
    assert (c ∈ filter P (seqZ m n)) as Hin by (rewrite E; left).
    apply list_elem_of_filter in Hin as [HP Hin].
    apply elem_of_seqZ in Hin. exfalso. by apply (Hnone c).
Qed.

Lemma available_head (w : World) (c : Z) :
  head (available w) = Some c <-> free w c ∧ ∀ x, free w x -> c <= x.
Proof.
  unfold available. change 15 with (Z.of_nat 15).
  rewrite head_filter_seqZ. unfold free. split.
  - intros (Hc & [Hr Hs] & Hlow). split; [split; [lia | done]|].
    intros x (Hx & Hxr & Hxs).
    destruct (decide (c <= x)) as [|Hlt]; [done|].
    exfalso. apply (Hlow x); [lia | done].
  - intros ((Hc & Hr & Hs) & Hmin). split; [lia|]. split; [done|].
    intros x Hx [Hxr Hxs].
    assert (c <= x) by (apply Hmin; repeat split; [lia | lia | done | done]).
    lia.
Qed.

Lemma available_nil (w : World) : available w = [] <-> ∀ x, ¬ free w x.
Proof.
  split.
  - intros Hnil x (Hx & Hr & Hs).
    assert (head (available w) = None) as Hhd by (by rewrite Hnil).
    unfold available in Hhd. rewrite head_filter_seqZ_None in Hhd.
    apply (Hhd x); [lia | done].
  - intros Hnone. destruct (available w) as [|c l] eqn:E; [done|].
    assert (head (available w) = Some c) as Hhd by (by rewrite E).
    apply available_head in Hhd as [Hf _]. by apply Hnone in Hf.
Qed.

Lemma after_warning_fields (u : option Z) (w : World) :
  update_channels (after_warning u w) = update_channels w
  ∧ channel_servos (after_warning u w) = channel_servos w
  ∧ config (after_warning u w) = config w
  ∧ servos (after_warning u w) = servos w
  ∧ leds (after_warning u w) = leds w
  ∧ actuators (after_warning u w) = actuators w.
Proof.
  unfold after_warning. case_bool_decide; [|done].
  by destruct (echo (config w)).
Qed.

Lemma available_after_warning (u : option Z) (w : World) :
  available (after_warning u w) = available w.
Proof.
  destruct (after_warning_fields u w) as (_ & Hcs & Hcfg & _).
  unfold available. by rewrite Hcs, Hcfg.
Qed.

Lemma get_dma_channel_eq (w : World) :
  get_dma_channel w = (Ok (head (available w)), w).
Proof.
  unfold get_dma_channel, available, bind, gets, ret. cbn beta iota.
  by destruct (filter _ _).
Qed.

Lemma new_dma_channel_explicit (u : option Z) (c : Z) (w : World) :
  new_dma_channel u (Some c) w
  = (Ok c, set_update_channels (dict_set u c) (after_warning u w)).
Proof.
  unfold new_dma_channel, after_warning, attr_echo, bind, gets, modify, ret.
  cbn beta iota. case_bool_decide; [|done].
  by destruct (echo (config w)).
Qed.

Lemma new_dma_channel_auto (u : option Z) (w : World) :
  new_dma_channel u None w
  = match available w with
    | c :: _ =>
        (Ok c, set_update_channels (dict_set u c) (after_warning u w))
    | [] => (Raise NoChannelAvailable, after_warning u w)
    end.
Proof.
  rewrite <- (available_after_warning u w).
  unfold new_dma_channel.
  unfold bind at 1 2. unfold gets at 1. cbn beta iota.
  assert ((if bool_decide (u ∈ dict_keys (update_channels w))
           then let! e := attr_echo VConfig in
                if e then modify (warn (ReplacingServoChannel u)) else ret tt
           else ret tt) w = (Ok tt, after_warning u w)) as ->.
  { unfold after_warning, attr_echo, bind, gets, modify, ret.
    case_bool_decide; [|done]. by destruct (echo (config w)). }
  unfold bind at 1 2. rewrite get_dma_channel_eq.
  by destruct (available (after_warning u w)).
Qed.

Lemma new_servo_channel_auto (u : option Z) (w : World) :
  new_servo_channel u None w
  = match available w with
    | c :: _ =>
        (Ok (mkPWMServo c u),
         set_channel_servos <[c := mkPWMServo c u]>
           (set_update_channels (dict_set u c) (after_warning u w)))
    | [] => (Raise NoChannelAvailable, after_warning u w)
    end.
Proof.
  unfold new_servo_channel, bind. rewrite new_dma_channel_auto.
  by destruct (available w).
Qed.

Lemma get_servo_channel_eq (u : option Z) (w : World) :
  get_servo_channel u w
  = match bound_servo_channel u w with
    | Some ch => (Ok ch, w)
    | None =>
        if match u with
           | None => true
           | Some u' => bool_decide (channel_servos w !! u' = None)
           end
        then new_servo_channel u None w
        else (Raise (ChannelBindingInconsistency u), w)
    end.
Proof.
  unfold get_servo_channel, bound_servo_channel, try_except.
  unfold bind at 1 2. unfold gets at 1 2. cbn beta iota.
  assert (bool_decide (KeyError ∈ [KeyError; IndexError]) = true) as HK
    by done.
  assert (bool_decide (IndexError ∈ [KeyError; IndexError]) = true) as HI
    by done.
  destruct u as [u|].
  - unfold bind, subscript, subscript_map, gets, ret, raise. cbn.
    destruct (dict_get (Some u) (update_channels w)) as [c|]; cbn.
    + destruct (channel_servos w !! c); cbn; [done|].
      rewrite HK. by destruct (bool_decide (_ = None)).
    + rewrite HK. by destruct (bool_decide (_ = None)).
  - unfold bind, index, subscript, subscript_map, gets, ret, raise. cbn.
    rewrite <- head_lookup.
    destruct (head (dict_keys (update_channels w))) as [k|]; cbn;
      [|by rewrite HI].
    destruct (dict_get k (update_channels w)) as [c|]; cbn;
      [|by rewrite HK].
    destruct (channel_servos w !! c); cbn; [done | by rewrite HK].
Qed.

Lemma filter_all {A} (P : A -> Prop) `{!∀ x, Decision (P x)} (l : list A) :
  Forall P l -> filter P l = l.
Proof.
  induction 1 as [|x l Hx _ IH]; [done|].
  rewrite filter_cons, decide_True by done. by rewrite IH.
Qed.

Lemma filter_drop_head (P P' : Z -> Prop) `{!∀ x, Decision (P x)}
    `{!∀ x, Decision (P' x)} (l : list Z) (c : Z) (rest : list Z) :
  NoDup l -> filter P l = c :: rest -> (∀ x, P' x <-> x ≠ c ∧ P x) ->
  filter P' l = rest.
Proof.
  intros Hnd Hf HP'.
  rewrite (list_filter_iff P' (fun x => x ≠ c ∧ P x)) by done.
  rewrite <- list_filter_filter, Hf.
  assert (NoDup (c :: rest)) as Hnd'
    by (rewrite <- Hf; by apply NoDup_filter).
  apply NoDup_cons in Hnd' as [Hc _].
  rewrite filter_cons, decide_False by (intros ?; done).
  apply filter_all, Forall_forall. intros x Hx ->. done.
Qed.

(** Allocating the head of [available] leaves its tail available. *)
Lemma available_alloc (w : World) (u : option Z) (c : Z) (rest : list Z)
    (ch : PWMServo) (f : list (option Z * Z) -> list (option Z * Z)) :
  available w = c :: rest ->
  available (set_channel_servos <[c := ch]>
               (set_update_channels f (after_warning u w))) = rest.
Proof.
  intros Hav. rewrite <- (available_after_warning u w) in Hav.
  unfold available in *. cbn [config channel_servos set_channel_servos
    set_update_channels].
  eapply filter_drop_head; [apply NoDup_seqZ | exact Hav |].
  intros x. cbn beta. rewrite lookup_insert_None.
  intuition congruence.
Qed.

Lemma allocate_all_spec (cycles : list (option Z)) (w : World) :
  (length cycles <= length (available w))%nat ->
  ∃ w',
    allocate_all cycles w
    = (Ok <$> zip_with mkPWMServo (available w) cycles, w')
    ∧ available w' = drop (length cycles) (available w).
Proof.
  revert w. induction cycles as [|u cycles IH]; intros w Hlen.
  - exists w. split; [|done]. simpl. by destruct (available w).
  - cbn [allocate_all]. rewrite new_servo_channel_auto.
    destruct (available w) as [|c rest] eqn:Hav; [simpl in Hlen; lia|].
    pose proof (available_alloc w u c rest (mkPWMServo c u)
                  (dict_set u c) Hav) as Hav'.
    destruct (IH _ ltac:(rewrite Hav'; simpl in Hlen; lia)) as (w' & -> & Hw').
    exists w'. rewrite Hav' in *. done.
Qed.

(** What an allocation leaves alone: the bindings of the other cycles,
    and the servo channels, of which it adds at most one with an id of the
    driver's range. *)
Lemma new_servo_channel_frame (u : option Z) (w : World) :
  (∀ k, k ≠ u ->
        dict_get k (update_channels (snd (new_servo_channel u None w)))
        = dict_get k (update_channels w))
  ∧ (∀ c, is_Some (channel_servos (snd (new_servo_channel u None w)) !! c) ->
          is_Some (channel_servos w !! c) ∨ 0 <= c < 15).
Proof.
  rewrite new_servo_channel_auto.
  destruct (after_warning_fields u w) as (Hu & Hs & _).
  destruct (available w) as [|c rest] eqn:Hav; cbn [snd].
  - rewrite Hu, Hs. by split; [|left].
  - assert (head (available w) = Some c) as Hhd by (by rewrite Hav).
    apply available_head in Hhd as [(Hc & _) _].
    cbn. rewrite Hu, Hs. split.
    + intros k Hk. by apply dict_get_set_ne.
    + intros c'. destruct (decide (c = c')) as [<-|Hne]; [by right|].
      rewrite lookup_insert_ne by done. by left.
Qed.

(** When the cycle is not bound and its number is not the key of a servo
    channel, [get_servo_channel] is the allocation. *)
Lemma get_servo_channel_unbound (u : Z) (w : World) :
  dict_get (Some u) (update_channels w) = None ->
  channel_servos w !! u = None ->
  get_servo_channel (Some u) w = new_servo_channel (Some u) None w.
Proof.
  intros Hu Hs. rewrite get_servo_channel_eq.
  unfold bound_servo_channel. cbn. rewrite Hu. cbn.
  by rewrite bool_decide_eq_true_2.
Qed.

Lemma request_all_allocates (cycles : list Z) (w : World) :
  NoDup cycles ->
  (∀ u, u ∈ cycles ->
        dict_get (Some u) (update_channels w) = None ∧ ¬ 0 <= u < 15) ->
  (∀ c, is_Some (channel_servos w !! c) -> 0 <= c < 15) ->
  request_all cycles w = allocate_all (Some <$> cycles) w.
Proof.
  revert w. induction cycles as [|u cycles IH]; intros w Hnd Hcyc Hdom;
    [done|].
  apply NoDup_cons in Hnd as [Hu Hnd].
  cbn [request_all allocate_all fmap list_fmap].
  destruct (Hcyc u ltac:(left)) as [Hfree Hout].
  rewrite get_servo_channel_unbound; [|done|].
  2:{ destruct (channel_servos w !! u) eqn:E; [|done].
      exfalso. apply Hout, Hdom. by rewrite E. }
  destruct (new_servo_channel_frame (Some u) w) as [Hkeep Hnew].
  destruct (new_servo_channel (Some u) None w) as [r w'].
  cbn [snd] in Hkeep, Hnew.
  rewrite IH; [done | done | |].
  - intros u' Hu'. destruct (Hcyc u' ltac:(by right)) as [Hfree' Hout'].
    split; [|done]. rewrite Hkeep; [done|].
    intros [= ->]. done.
  - intros c Hc. destruct (Hnew c Hc) as [Hold|]; [by apply Hdom | done].
Qed.

Lemma allocate_all_frame (keys : list (option Z)) (w : World) :
  (∀ k, k ∉ keys ->
        dict_get k (update_channels (snd (allocate_all keys w)))
        = dict_get k (update_channels w))
  ∧ (∀ c, is_Some (channel_servos (snd (allocate_all keys w)) !! c) ->
          is_Some (channel_servos w !! c) ∨ 0 <= c < 15).
Proof.
  revert w. induction keys as [|u keys IH]; intros w.
  - by split; [|left].
  - cbn [allocate_all].
    destruct (new_servo_channel_frame u w) as [Hkeep Hnew].
    destruct (new_servo_channel u None w) as [r w']. cbn [snd] in *.
    destruct (IH w') as [Hkeep' Hnew'].
    destruct (allocate_all keys w') as [rs w'']. cbn [snd] in *.
    split.
    + intros k Hk. apply not_elem_of_cons in Hk as [Hne Hk].
      rewrite Hkeep'; [by apply Hkeep | done].
    + intros c Hc. destruct (Hnew' c Hc) as [Hc'|]; [by apply Hnew | by right].
Qed.

(** C4, amended: on a controller whose configuration leaves 13 of the 15
    ids unreserved, 13 successive allocations of a servo channel by
    [new_servo_channel], whatever the update cycles, succeed and take the
    unreserved ids in ascending order, and the next one raises the
    no-channel-available error (a [RuntimeError]).  The same holds when the
    14 channels are requested through [get_servo_channel] for distinct
    update cycles none of which is a number of [0,15), which the guard of
    [get_servo_channel] could take for a channel id.  In any state an
    allocation without explicit channel, by [new_dma_channel] or by
    [new_servo_channel] on top of it, raises that error exactly when no id
    of [0,15) is free, that is unreserved and not the key of a servo
    channel, and succeeds otherwise.  [new_dma_channel] on its own records
    no servo channel and leaves the free ids as they are, so a series of
    its calls never exhausts them. *)
Theorem channel_exhaustion :
  (∀ (pins : gmap Z string) (e : bool) (reserved : list Z)
     (cycles : list (option Z)) (last : option Z),
     length (filter (fun x => x ∉ reserved) (seqZ 0 15)) = 13%nat ->
     length cycles = 13%nat ->
     ∃ w',
       allocate_all cycles
         (OutputController__init__ (mkConfig pins e reserved))
       = (Ok <$> zip_with mkPWMServo
                   (filter (fun x => x ∉ reserved) (seqZ 0 15)) cycles, w')
       ∧ fst (new_servo_channel last None w') = Raise NoChannelAvailable
       ∧ class_of NoChannelAvailable = RuntimeError)
  ∧ (∀ (w : World) (u : option Z),
       (fst (new_dma_channel u None w) = Raise NoChannelAvailable
        <-> ∀ x, ¬ free w x)
       ∧ (fst (new_servo_channel u None w) = Raise NoChannelAvailable
          <-> ∀ x, ¬ free w x)
       ∧ (is_ok (fst (new_dma_channel u None w)) = true
          <-> ∃ x, free w x)
       ∧ (is_ok (fst (new_servo_channel u None w)) = true
          <-> ∃ x, free w x))
  ∧ (∀ (pins : gmap Z string) (e : bool) (reserved : list Z)
       (cycles : list Z) (last : Z),
       length (filter (fun x => x ∉ reserved) (seqZ 0 15)) = 13%nat ->
       length cycles = 13%nat ->
       NoDup (cycles ++ [last]) ->
       (∀ u, u ∈ cycles ++ [last] -> ¬ 0 <= u < 15) ->
       ∃ w',
         request_all cycles
           (OutputController__init__ (mkConfig pins e reserved))
         = (Ok <$> zip_with mkPWMServo
                     (filter (fun x => x ∉ reserved) (seqZ 0 15))
                     (Some <$> cycles), w')
         ∧ fst (get_servo_channel (Some last) w')
           = Raise NoChannelAvailable)
  ∧ (∀ (w : World) (u : option Z),
       channel_servos (snd (new_dma_channel u None w)) = channel_servos w
       ∧ available (snd (new_dma_channel u None w)) = available w
       ∧ ∀ x, free (snd (new_dma_channel u None w)) x <-> free w x).
Proof.
  assert (∀ (pins : gmap Z string) (e : bool) (reserved : list Z)
            (cycles : list (option Z)) (last : option Z),
            length (filter (fun x => x ∉ reserved) (seqZ 0 15)) = 13%nat ->
            length cycles = 13%nat ->
            ∃ w',
              allocate_all cycles
                (OutputController__init__ (mkConfig pins e reserved))
              = (Ok <$> zip_with mkPWMServo
                          (filter (fun x => x ∉ reserved) (seqZ 0 15))
                          cycles, w')
              ∧ fst (new_servo_channel last None w')
                = Raise NoChannelAvailable
              ∧ class_of NoChannelAvailable = RuntimeError) as Hdirect.
  { intros pins e reserved cycles last Hfree Hlen.
    set (w := OutputController__init__ (mkConfig pins e reserved)).
    assert (available w = filter (fun x => x ∉ reserved) (seqZ 0 15)) as Hav.
    { unfold available. apply list_filter_iff. intros x. cbn.
      rewrite lookup_empty. intuition. }
    destruct (allocate_all_spec cycles w) as (w' & Hall & Hav').
    { rewrite Hav, Hfree, Hlen. done. }
    exists w'. rewrite <- Hav. split; [done|]. split; [|done].
    rewrite new_servo_channel_auto, Hav', drop_ge; [done|].
    rewrite Hav, Hfree, Hlen. done. }
  split; [exact Hdirect|]. split; [|split].
  - intros w u. rewrite new_dma_channel_auto, new_servo_channel_auto.
    rewrite <- available_nil.
    assert ((∃ x, free w x) <-> available w ≠ []) as ->.
    { rewrite available_nil. split.
      - intros [x Hx] Hno. by apply (Hno x).
      - intros Hsome. destruct (available w) as [|c l] eqn:E.
        + exfalso. apply Hsome. intros x Hx.
          by apply (proj1 (available_nil w) E x).
        + assert (head (available w) = Some c) as Hhd by (by rewrite E).
          apply available_head in Hhd as [Hc _]. by exists c. }
    destruct (available w); simpl; intuition congruence.
  - intros pins e reserved cycles last Hfree Hlen Hnd Hout.
    set (w := OutputController__init__ (mkConfig pins e reserved)).
    apply NoDup_app in Hnd as (Hnd & Hlast & _).
    destruct (Hdirect pins e reserved (Some <$> cycles) (Some last) Hfree)
      as (w' & Hall & Hfail & _); [by rewrite length_fmap|].
    fold w in Hall. exists w'. split.
    + rewrite request_all_allocates; [done | done | |].
      * intros u Hu. split; [done|]. apply Hout, elem_of_app. by left.
      * intros c [ch Hc]. cbn in Hc. by rewrite lookup_empty in Hc.
    + destruct (allocate_all_frame (Some <$> cycles) w) as [Hkeep Hnew].
      rewrite Hall in Hkeep, Hnew. cbn [snd] in Hkeep, Hnew.
      rewrite get_servo_channel_unbound; [done | |].
      * rewrite Hkeep; [done|]. intros Hin.
        apply list_elem_of_fmap in Hin as (u & [= <-] & Hu).
        apply (Hlast last); [done | left].
      * destruct (channel_servos w' !! last) eqn:E; [|done]. exfalso.
        destruct (Hnew last) as [[ch Hch]|Hin]; [by rewrite E | |].
        -- cbn in Hch. by rewrite lookup_empty in Hch.
        -- apply (Hout last); [|done]. apply elem_of_app. right. left.
  - intros w u.
    assert (channel_servos (snd (new_dma_channel u None w))
            = channel_servos w
            ∧ reserved_channels (config (snd (new_dma_channel u None w)))
              = reserved_channels (config w)) as [Hs Hr].
    { rewrite new_dma_channel_auto.
      destruct (after_warning_fields u w) as (_ & Hs & Hc & _).
      destruct (available w); cbn; by rewrite Hs, Hc. }
    split; [done|]. unfold available, free. by rewrite Hs, Hr.
Qed.

(** ** Reachable states *)

Lemma consistent_init (cfg : Config) :
  consistent (OutputController__init__ cfg).
Proof. split; intros *; simpl; by rewrite ?lookup_empty. Qed.

Lemma consistent_step (w w' : World) :
  consistent w -> channel_step w w' -> consistent w'.
Proof.
  intros [H1 H2 H3 H4] Hstep.
  destruct Hstep as [(Hu & Hs & Hr) | u c Hc Hu Hs Hr | c Hc Hu Hs Hr].
  - split; rewrite ?Hu, ?Hs, ?Hr; done.
  - apply available_head in Hc as [(Hc & Hcr & Hcs) _].
    assert (∀ u' c', dict_get (Some u') (update_channels w) = Some c' ->
                     c' ≠ c) as Hother.
    { intros u' c' Hb ->. apply H1 in Hb as [ch Hch]. congruence. }
    split; rewrite ?Hu, ?Hs, ?Hr.
    + intros u' c'. destruct (decide (u = Some u')) as [->|Hne].
      * rewrite dict_get_set_eq. intros [= <-].
        rewrite lookup_insert_eq. by eexists.
      * rewrite dict_get_set_ne by done. intros Hb.
        rewrite lookup_insert_ne by (by intros <-; eapply Hother).
        by eapply H1.
    + intros c' ch. destruct (decide (c = c')) as [->|Hne].
      * rewrite lookup_insert_eq. by intros [= <-].
      * rewrite lookup_insert_ne by done. apply H2.
    + intros k c'. destruct (decide (u = k)) as [->|Hne].
      * rewrite dict_get_set_eq. by intros [= <-].
      * rewrite dict_get_set_ne by done. apply H3.
    + intros u1 u2 c'.
      destruct (decide (u = Some u1)) as [E1|Hne1];
        destruct (decide (u = Some u2)) as [E2|Hne2].
      * intros _ _. congruence.
      * subst u. rewrite dict_get_set_eq, dict_get_set_ne by done.
        intros [= <-] Hb. by apply Hother in Hb.
      * subst u. rewrite dict_get_set_eq, dict_get_set_ne by done.
        intros Hb [= <-]. by apply Hother in Hb.
      * rewrite !dict_get_set_ne by done. apply H4.
  - apply available_head in Hc as [(Hc & Hcr & Hcs) _].
    split; rewrite ?Hu, ?Hs, ?Hr.
    + intros u' c'. rewrite dict_get_set_ne by done. apply H1.
    + done.
    + intros k c'. destruct k as [k|].
      * rewrite dict_get_set_ne by done. apply H3.
      * rewrite dict_get_set_eq. by intros [= <-].
    + intros u1 u2 c'. rewrite !dict_get_set_ne by done. apply H4.
Qed.

Lemma channel_step_same (w w' w'' : World) :
  channel_step w w' -> same_channels w' w'' -> channel_step w w''.
Proof.
  intros Hstep (Hu & Hs & Hr).
  destruct Hstep as [(Hu' & Hs' & Hr') | u c Hc Hu' Hs' Hr' | c Hc Hu' Hs' Hr'].
  - apply step_same. split; [|split]; congruence.
  - apply (step_servo_channel _ _ u c); congruence.
  - apply (step_bare_channel _ _ c); congruence.
Qed.

Lemma after_warning_same (u : option Z) (w : World) :
  same_channels w (after_warning u w).
Proof.
  destruct (after_warning_fields u w) as (Hu & Hs & Hc & _).
  split; [|split]; congruence.
Qed.

Lemma new_servo_channel_step (u : option Z) (w : World) :
  channel_step w (snd (new_servo_channel u None w)).
Proof.
  rewrite new_servo_channel_auto.
  destruct (after_warning_fields u w) as (Hu & Hs & Hc & _).
  destruct (available w) as [|c rest] eqn:Hav; cbn [snd].
  - apply step_same, after_warning_same.
  - apply (step_servo_channel _ _ u c); cbn; [by rewrite Hav | congruence..].
Qed.

Lemma get_servo_channel_step (u : option Z) (w : World) :
  channel_step w (snd (get_servo_channel u w)).
Proof.
  rewrite get_servo_channel_eq.
  destruct (bound_servo_channel u w); [by apply step_same|].
  destruct u as [u|]; [|apply new_servo_channel_step].
  case_bool_decide; [apply new_servo_channel_step | by apply step_same].
Qed.

Lemma claim_pin_same (pin : Z) (cfg io_type : value) (comment : string)
    (w : World) :
  same_channels w (snd (claim_pin pin cfg io_type comment w)).
Proof.
  unfold claim_pin, attr_used_pins, bind, gets, modify, raise.
  destruct cfg; cbn; try done.
  by case_bool_decide.
Qed.

(** After the channel is resolved, the constructors only claim the pin,
    build the object and register it. *)
Lemma register_same {A} (pin : Z) (cfg io_type : value) (comment : string)
    (made : result A) (store : A -> World -> World) (w : World) :
  (∀ a w0, same_channels w0 (store a w0)) ->
  same_channels w
    (snd ((claim_pin pin cfg io_type comment ;;!
           let! a := lift made in
           modify (store a) ;;! ret a) w)).
Proof.
  intros Hstore. unfold bind at 1.
  pose proof (claim_pin_same pin cfg io_type comment w) as Hclaim.
  destruct (claim_pin pin cfg io_type comment w) as [[[]|e] w1]; [|done].
  unfold bind, lift, modify, ret. destruct made as [a|e]; [|done].
  cbn in *. destruct Hclaim as (Hu & Hs & Hr).
  destruct (Hstore a w1) as (Hu' & Hs' & Hr').
  split; [|split]; congruence.
Qed.

Lemma new_servo_step name pin update range_of_motion pulse reverse
    (w : World) :
  channel_step w
    (snd (new_servo name pin update range_of_motion pulse reverse w)).
Proof.
  unfold new_servo. unfold bind at 1.
  pose proof (get_servo_channel_step update w) as Hstep.
  destruct (get_servo_channel update w) as [[ch|e] w1]; [|done].
  eapply channel_step_same; [exact Hstep|].
  apply (register_same (A:=obj)). by intros a w0.
Qed.

Lemma new_continuous_servo_step name pin pulse reverse (w : World) :
  channel_step w (snd (new_continuous_servo name pin pulse reverse w)).
Proof.
  unfold new_continuous_servo. unfold bind at 1.
  pose proof (get_servo_channel_step None w) as Hstep.
  destruct (get_servo_channel None w) as [[ch|e] w1]; [|done].
  eapply channel_step_same; [exact Hstep|].
  apply (register_same (A:=obj)). by intros a w0.
Qed.

Lemma new_led_step name pin (w : World) :
  channel_step w (snd (new_led name pin w)).
Proof.
  unfold new_led. unfold bind at 1 2. unfold gets at 1. cbn beta iota.
  destruct (update_channels w) as [|[k c] bound] eqn:Hbound.
  - rewrite new_dma_channel_auto.
    destruct (after_warning_fields None w) as (Hu & Hs & Hc & _).
    destruct (available w) as [|c rest] eqn:Hav.
    + apply step_same, after_warning_same.
    + eapply channel_step_same;
        [|apply (register_same (A:=obj)); by intros a w0].
      apply (step_bare_channel _ _ c); cbn; [by rewrite Hav | congruence..].
  - assert ((let! first := index (dict_keys ((k, c) :: bound)) 0 in
             subscript ((k, c) :: bound) first) w = (Ok c, w)) as ->.
    { unfold bind, index, subscript, ret. cbn. by rewrite decide_True. }
    apply step_same, (register_same (A:=obj)). by intros a w0.
Qed.

Lemma reachable_consistent (w : World) : reachable w -> consistent w.
Proof.
  induction 1 as [cfg | w ? ? ? ? ? ? _ IH | w ? ? ? ? _ IH
                 | w ? ? _ IH | w ? _ IH].
  - apply consistent_init.
  - eapply consistent_step; [exact IH | apply new_servo_step].
  - eapply consistent_step; [exact IH | apply new_continuous_servo_step].
  - eapply consistent_step; [exact IH | apply new_led_step].
  - eapply consistent_step; [exact IH | apply get_servo_channel_step].
Qed.

Lemma available_same (w w' : World) :
  channel_servos w' = channel_servos w ->
  reserved_channels (config w') = reserved_channels (config w) ->
  available w' = available w.
Proof. intros Hs Hr. unfold available. by rewrite Hs, Hr. Qed.

Lemma new_led_fresh name pin (w : World) (c : Z) :
  update_channels w = [] -> head (available w) = Some c ->
  update_channels (snd (new_led name pin w)) = [(None, c)]
  ∧ channel_servos (snd (new_led name pin w)) = channel_servos w
  ∧ reserved_channels (config (snd (new_led name pin w)))
    = reserved_channels (config w).
Proof.
  intros Hempty Hc.
  destruct (available w) as [|c' rest] eqn:Hav; [done|]. injection Hc as ->.
  remember (new_led name pin w) as r eqn:Er.
  unfold new_led in Er. unfold bind at 1 2 in Er. unfold gets at 1 in Er.
  cbn beta iota in Er. rewrite Hempty, new_dma_channel_auto, Hav in Er.
  subst r.
  destruct (after_warning_fields None w) as (Hu & Hs & Hcfg & _).
  match goal with
  | |- context [snd (?m ?w1)] =>
      assert (same_channels w1 (snd (m w1))) as (Hu' & Hs' & Hr')
        by (apply (register_same (A:=obj)); by intros a w0)
  end.
  rewrite Hu', Hs', Hr'. cbn. by rewrite Hu, Hs, Hcfg, Hempty.
Qed.

(** C2, amended: [get_dma_channel], on which every automatic allocation
    rests, returns the lowest id of [0,15) that is not reserved and not the
    key of a servo channel, which is all the code counts as in use; on a
    fresh controller with nothing reserved the first allocation, whichever
    way it is requested, gets id 0, and with ids 0 and 1 reserved it gets
    id 2.  In a reachable state the id it picks is bound to no integer
    update cycle.  It may still be bound under the key [None]: the channel
    that [new_led] takes on a controller without bindings gets no servo
    channel, so it remains the lowest free id and is picked again. *)
Theorem get_dma_channel_lowest_free :
  (∀ (w : World) (c : Z),
     get_dma_channel w = (Ok (Some c), w)
     <-> free w c ∧ ∀ x, free w x -> c <= x)
  ∧ (∀ (w : World), ∃ r, get_dma_channel w = (Ok r, w))
  ∧ (∀ (w : World) (c u : Z),
       reachable w -> fst (get_dma_channel w) = Ok (Some c) ->
       dict_get (Some u) (update_channels w) ≠ Some c)
  ∧ (∀ (pins : gmap Z string) (e : bool) (u : option Z),
       let w := OutputController__init__ (mkConfig pins e []) in
       fst (get_dma_channel w) = Ok (Some 0)
       ∧ fst (new_dma_channel u None w) = Ok 0
       ∧ fst (new_servo_channel u None w) = Ok (mkPWMServo 0 u)
       ∧ fst (get_servo_channel u w) = Ok (mkPWMServo 0 u))
  ∧ (∀ (pins : gmap Z string) (e : bool) (u : option Z),
       let w := OutputController__init__ (mkConfig pins e [0; 1]) in
       fst (get_dma_channel w) = Ok (Some 2)
       ∧ fst (new_dma_channel u None w) = Ok 2
       ∧ fst (new_servo_channel u None w) = Ok (mkPWMServo 2 u)
       ∧ fst (get_servo_channel u w) = Ok (mkPWMServo 2 u))
  ∧ (∀ (cfg : Config) (c : Z) name pin,
       let w := snd (new_led name pin (OutputController__init__ cfg)) in
       fst (get_dma_channel (OutputController__init__ cfg)) = Ok (Some c) ->
       reachable w
       ∧ dict_get None (update_channels w) = Some c
       ∧ fst (get_dma_channel w) = Ok (Some c)).
Proof.
  split; [|split; [|split; [|split; [|split]]]].
  - intros w c. rewrite get_dma_channel_eq, <- available_head.
    split; [by intros [= ->] | by intros ->].
  - intros w. rewrite get_dma_channel_eq. by eexists.
  - intros w c u Hw. rewrite get_dma_channel_eq. cbn [fst].
    intros [= Hc] Hu.
    apply available_head in Hc as [(_ & _ & Hfree) _].
    destruct (reachable_consistent w Hw) as [H1 _ _ _].
    destruct (H1 u c Hu) as [ch Hch]. congruence.
  - intros pins e u w.
    rewrite get_dma_channel_eq, new_dma_channel_auto, get_servo_channel_eq,
      new_servo_channel_auto.
    assert (available w = seqZ 0 15) as Hav by (by vm_compute).
    assert (bound_servo_channel u w = None) as -> by (by destruct u).
    rewrite Hav. by destruct u.
  - intros pins e u w.
    rewrite get_dma_channel_eq, new_dma_channel_auto, get_servo_channel_eq,
      new_servo_channel_auto.
    assert (available w = seqZ 2 13) as Hav by (by vm_compute).
    assert (bound_servo_channel u w = None) as -> by (by destruct u).
    rewrite Hav. by destruct u.
  - intros cfg c name pin w. rewrite !get_dma_channel_eq. cbn [fst].
    intros [= Hc].
    destruct (new_led_fresh name pin (OutputController__init__ cfg) c
                eq_refl Hc) as (Hu & Hs & Hr).
    split; [apply reachable_new_led, reachable_init|].
    subst w. split.
    + rewrite Hu. cbn. by rewrite decide_True.
    + by rewrite (available_same _ _ Hs Hr), Hc.
Qed.

(** C1, amended: in every state reachable through the actuator
    constructors and [get_servo_channel], no channel id is bound to two
    different update cycles (integer periods), every bound id lies in
    [0,15) outside the reserved set, and the id the allocator picks is in
    [0,15), not reserved and not the key of a servo channel.  The binding
    under the key [None] that [new_led] makes on a fresh controller is not
    a servo channel, so its id stays free: the servo cycle allocated next
    receives the same id, and LED and servo share the channel. *)
Theorem reachable_channel_bindings :
  (∀ (w : World), reachable w ->
     (∀ (u1 u2 c : Z),
        dict_get (Some u1) (update_channels w) = Some c ->
        dict_get (Some u2) (update_channels w) = Some c -> u1 = u2)
     ∧ (∀ (k : option Z) (c : Z),
          dict_get k (update_channels w) = Some c ->
          0 <= c < 15 ∧ c ∉ reserved_channels (config w))
     ∧ (∀ (c : Z),
          fst (get_dma_channel w) = Ok (Some c) ->
          0 <= c < 15 ∧ (c ∉ reserved_channels (config w))
          ∧ channel_servos w !! c = None))
  ∧ (∀ (cfg : Config) (c : Z) name pin (u : Z),
       let w := OutputController__init__ cfg in
       let w1 := snd (new_led name pin w) in
       fst (get_dma_channel w) = Ok (Some c) ->
       dict_get None (update_channels w1) = Some c
       ∧ fst (get_servo_channel (Some u) w1) = Ok (mkPWMServo c (Some u))
       ∧ update_channels (snd (get_servo_channel (Some u) w1))
         = [(None, c); (Some u, c)]).
Proof.
  split.
  - intros w Hw. destruct (reachable_consistent w Hw) as [_ _ H3 H4].
    split; [exact H4|]. split; [exact H3|].
    intros c. rewrite get_dma_channel_eq. cbn. intros [= Hc].
    by apply available_head in Hc as [? _].
  - intros cfg c name pin u w w1. rewrite get_dma_channel_eq. cbn [fst].
    intros [= Hc].
    destruct (new_led_fresh name pin w c eq_refl Hc) as (Hu & Hs & Hr).
    fold w1 in Hu, Hs, Hr.
    assert (available w1 = available w) as Hav
      by (by apply available_same).
    split; [by rewrite Hu|].
    rewrite get_servo_channel_eq.
    assert (bound_servo_channel (Some u) w1 = None) as ->
      by (unfold bound_servo_channel; by rewrite Hu).
    rewrite bool_decide_eq_true_2 by (rewrite Hs; apply lookup_empty).
    rewrite new_servo_channel_auto, Hav.
    destruct (available w) as [|c' rest]; [done|]. injection Hc as ->.
    split; [done|]. cbn.
    destruct (after_warning_fields (Some u) w1) as (-> & _).
    by rewrite Hu.
Qed.

(** C3: when the update cycle [u] is bound to a channel id and that id
    has a servo channel, [get_servo_channel(u)] returns that servo channel
    and changes nothing, so the bindings, the servo channels and the free
    ids are what they were; in every reachable state a cycle that is bound
    at all is bound in this way, to a servo channel that carries the bound
    id. *)
Theorem get_servo_channel_bound :
  (∀ (w : World) (u c : Z) (ch : PWMServo),
     dict_get (Some u) (update_channels w) = Some c ->
     channel_servos w !! c = Some ch ->
     get_servo_channel (Some u) w = (Ok ch, w))
  ∧ (∀ (w : World) (u c : Z),
       reachable w ->
       dict_get (Some u) (update_channels w) = Some c ->
       ∃ ch, channel_servos w !! c = Some ch
             ∧ dma_channel ch = c
             ∧ get_servo_channel (Some u) w = (Ok ch, w)
             ∧ available (snd (get_servo_channel (Some u) w)) = available w).
Proof.
  assert (∀ (w : World) (u c : Z) (ch : PWMServo),
            dict_get (Some u) (update_channels w) = Some c ->
            channel_servos w !! c = Some ch ->
            get_servo_channel (Some u) w = (Ok ch, w)) as Hbound.
  { intros w u c ch Hu Hc. rewrite get_servo_channel_eq.
    unfold bound_servo_channel. cbn. rewrite Hu. cbn. by rewrite Hc. }
  split; [exact Hbound|].
  intros w u c Hw Hu. destruct (reachable_consistent w Hw) as [H1 H2 _ _].
  destruct (H1 u c Hu) as [ch Hch]. exists ch.
  rewrite (Hbound w u c ch Hu Hch). eauto.
Qed.

(** ** Actuators *)

Lemma Qlt_bool_iff (x y : Q) : Qlt_bool x y = true <-> (x < y)%Q.
Proof.
  unfold Qlt_bool. rewrite negb_true_iff, <- not_true_iff_false.
  rewrite Qle_bool_iff. split; [apply Qnot_le_lt | apply Qlt_not_le].
Qed.

Lemma setattr_instance (c : pyclass) (attr : string) (v : value)
    (self : obj) :
  attr ≠ "pulse" -> setattr c attr v self = (Ok tt, <[attr := v]> self).
Proof.
  intros Hne. unfold setattr. rewrite bool_decide_eq_false_2; [done|].
  destruct c; cbn;
    [by intros ?%list_elem_of_singleton.. | apply not_elem_of_nil].
Qed.

Lemma Servo_pulse_raises (depth : nat) (self : obj) :
  ∃ e, Servo_pulse depth self = (Raise e, self) ∧ class_of e ≠ ValueError.
Proof.
  induction depth as [|depth IH]; [by exists RecursionLimit|].
  cbn [Servo_pulse]. unfold bind at 1. unfold getattr at 1.
  destruct (self !! "angle") as [a|]; [|by eexists].
  unfold bind at 1. unfold num at 1.
  destruct (as_num a) as [qa|]; [|by eexists].
  unfold ret at 1. unfold bind at 1. unfold getattr at 1.
  destruct (self !! "range") as [r|]; [|by eexists].
  unfold bind at 1. unfold num at 1.
  destruct (as_num r) as [qr|]; [|by eexists].
  unfold ret at 1. unfold bind at 1. unfold py_truediv at 1.
  destruct (Qeq_bool qr 0); [by eexists|].
  unfold ret at 1. unfold bind at 1. unfold getattr at 1.
  destruct (self !! "reverse") as [rev|]; [|by eexists].
  unfold bind at 1. destruct IH as (e & -> & He). by exists e.
Qed.

Lemma ContinousServo_pulse_raises (depth : nat) (self : obj) :
  ∃ e, ContinousServo_pulse depth self = (Raise e, self)
       ∧ class_of e ≠ ValueError.
Proof.
  induction depth as [|depth IH]; [by exists RecursionLimit|].
  cbn [ContinousServo_pulse]. unfold bind at 1.
  destruct IH as (e & -> & He). by exists e.
Qed.

Lemma Servo_set_outcome (depth : nat) (angle range : Q) (self : obj) :
  self !! "range" = Some (VNum range) ->
  if Qlt_bool 0 angle && Qlt_bool angle range
  then ∃ e, Servo_set depth angle self
            = (Raise e, <["angle" := VNum angle]> self)
            ∧ class_of e ≠ ValueError
  else Servo_set depth angle self = (Raise InvalidAngle, self).
Proof.
  intros Hrange.
  destruct (Servo_pulse_raises depth (<["angle" := VNum angle]> self))
    as (e & Hpulse & He).
  unfold Servo_set, ABCServo_update, bind, getattr, num, ret, raise.
  destruct (Qlt_bool 0 angle); cbn [andb negb]; [|done].
  rewrite Hrange. cbn [as_num].
  destruct (Qlt_bool angle range); cbn [andb negb]; [|done].
  exists e. split; [|done].
  rewrite setattr_instance by done. by rewrite Hpulse.
Qed.

Lemma Servo_set_raises (depth : nat) (angle : Q) (self : obj) :
  is_ok (fst (Servo_set depth angle self)) = false.
Proof.
  unfold Servo_set, ABCServo_update, bind, getattr, num, ret, raise.
  destruct (Qlt_bool 0 angle); cbn [negb]; [|done].
  destruct (self !! "range") as [r|]; [|done].
  destruct (as_num r) as [qr|]; [|done].
  destruct (Qlt_bool angle qr); cbn [negb]; [|done].
  rewrite setattr_instance by done.
  by destruct (Servo_pulse_raises depth (<["angle" := VNum angle]> self))
    as (e & -> & He).
Qed.

(** C6: evaluating [Servo(...)] raises: [__init__] assigns the sorted
    bounds to [self.pulse], which the class defines as a property without
    a setter, so the assignment is refused with an [AttributeError] and no
    servo exists, whatever the arguments and in particular for range 90,
    bounds (1.0, 2.0) and no reversal.  On any object the property itself
    never yields a value, since it reads [self.pulse] to get the bounds and
    so enters itself again until the recursion limit, and [set] never
    returns normally because it ends by reading the property. *)
Theorem Servo_pulse_unavailable :
  (∀ (controller name pin channel : value) (range_of_motion : Q)
     (pulse : list Q) (reverse : bool),
     construct (Servo__init__ controller name pin channel range_of_motion
                  pulse reverse)
     = Raise (CantSetAttribute "pulse"))
  ∧ construct (Servo__init__ VController (VStr "servo") (VInt 11)
                 (VChannel (mkPWMServo 0 (Some 20000))) 90 [1; 2]%Q false)
    = Raise (CantSetAttribute "pulse")
  ∧ class_of (CantSetAttribute "pulse") = AttributeError
  ∧ (∀ (depth : nat) (self : obj),
       is_ok (fst (Servo_pulse depth self)) = false)
  ∧ (∀ (depth : nat) (angle : Q) (self : obj),
       is_ok (fst (Servo_set depth angle self)) = false).
Proof.
  split; [done|]. split; [done|]. split; [done|]. split.
  - intros depth self.
    by destruct (Servo_pulse_raises depth self) as (e & -> & _).
  - apply Servo_set_raises.
Qed.

Lemma claim_pin_swapped (pin n : Z) (io_type : value) (comment : string)
    (w : World) :
  claim_pin pin (VInt n) io_type comment w
  = (Raise (NoAttribute "used_pins"), w).
Proof. done. Qed.

Lemma get_servo_channel_registries (u : option Z) (w : World) :
  servos (snd (get_servo_channel u w)) = servos w
  ∧ leds (snd (get_servo_channel u w)) = leds w
  ∧ actuators (snd (get_servo_channel u w)) = actuators w.
Proof.
  destruct (after_warning_fields u w) as (_ & _ & _ & Hs & Hl & Ha).
  rewrite get_servo_channel_eq.
  destruct (bound_servo_channel u w); [done|].
  assert (servos (snd (new_servo_channel u None w)) = servos w
          ∧ leds (snd (new_servo_channel u None w)) = leds w
          ∧ actuators (snd (new_servo_channel u None w)) = actuators w).
  { rewrite new_servo_channel_auto. by destruct (available w). }
  destruct u as [u|]; [|done]. by case_bool_decide.
Qed.

(** C7: evaluating [ContinousServo(...)] raises: [__init__] hands the
    parent initialiser five positional arguments, [self] first, where it
    takes four, which is a [TypeError]; it never stores the pulse bounds,
    and the property [pulse] reads [self.pulse], that is itself, so it
    yields no value on any object.  Hence [new_continuous_servo] never
    returns a servo. *)
Theorem ContinousServo_pulse_unavailable :
  (∀ (controller name pin channel pulse reverse : value),
     construct (ContinousServo__init__ controller name pin channel pulse
                  reverse)
     = Raise ArgumentCount)
  ∧ class_of ArgumentCount = TypeError
  ∧ (∀ (depth : nat) (self : obj),
       is_ok (fst (ContinousServo_pulse depth self)) = false)
  ∧ (∀ name pin pulse reverse (w : World),
       is_ok (fst (new_continuous_servo name pin pulse reverse w)) = false).
Proof.
  split; [done|]. split; [done|]. split.
  - intros depth self.
    by destruct (ContinousServo_pulse_raises depth self) as (e & -> & _).
  - intros name pin pulse reverse w. unfold new_continuous_servo.
    unfold bind at 1. destruct (get_servo_channel None w) as [[ch|e] w1];
      [|done].
    unfold bind at 1. by rewrite claim_pin_swapped.
Qed.

(** C9: none of the three constructors ever returns or registers an
    actuator: when the channel is resolved, the call of [claim_pin] raises
    an [AttributeError], because it passes [RPIO.OUT] as the configuration,
    and the registries are left as they were.  In particular, on a fresh
    controller, [new_servo('left', 11)] and then [new_servo('right', 12)]
    both raise and neither name is in the registry. *)
Theorem constructors_register_nothing :
  (∀ name pin update range_of_motion pulse reverse (w : World),
     let r := new_servo name pin update range_of_motion pulse reverse w in
     is_ok (fst r) = false
     ∧ servos (snd r) = servos w ∧ leds (snd r) = leds w
     ∧ actuators (snd r) = actuators w)
  ∧ (∀ name pin pulse reverse (w : World),
       let r := new_continuous_servo name pin pulse reverse w in
       is_ok (fst r) = false
       ∧ servos (snd r) = servos w ∧ leds (snd r) = leds w
       ∧ actuators (snd r) = actuators w)
  ∧ (∀ name pin (w : World),
       let r := new_led name pin w in
       is_ok (fst r) = false
       ∧ servos (snd r) = servos w ∧ leds (snd r) = leds w
       ∧ actuators (snd r) = actuators w)
  ∧ (let r1 := new_servo "left" 11 (Some 20000) 90 [1; 2]%Q false
                 (fresh []) in
     let r2 := new_servo "right" 12 (Some 20000) 90 [1; 2]%Q false
                 (snd r1) in
     fst r1 = Raise (NoAttribute "used_pins")
     ∧ fst r2 = Raise (NoAttribute "used_pins")
     ∧ servos (snd r2) !! "left" = None
     ∧ servos (snd r2) !! "right" = None
     ∧ servos (snd r2) = ∅).
Proof.
  split; [|split; [|split]].
  - intros name pin update range_of_motion pulse reverse w.
    pose proof (get_servo_channel_registries update w) as Hreg.
    cbn zeta. remember (new_servo _ _ _ _ _ _ w) as r eqn:Er.
    unfold new_servo in Er. unfold bind at 1 in Er.
    destruct (get_servo_channel update w) as [[ch|e] w1]; [|by subst r].
    unfold bind at 1 in Er. rewrite claim_pin_swapped in Er. by subst r.
  - intros name pin pulse reverse w.
    pose proof (get_servo_channel_registries None w) as Hreg.
    cbn zeta. remember (new_continuous_servo _ _ _ _ w) as r eqn:Er.
    unfold new_continuous_servo in Er. unfold bind at 1 in Er.
    destruct (get_servo_channel None w) as [[ch|e] w1]; [|by subst r].
    unfold bind at 1 in Er. rewrite claim_pin_swapped in Er. by subst r.
  - intros name pin w.
    destruct (after_warning_fields None w) as (_ & _ & _ & Hs & Hl & Ha).
    cbn zeta. remember (new_led name pin w) as r eqn:Er.
    unfold new_led in Er. unfold bind at 1 2 in Er. unfold gets at 1 in Er.
    cbn beta iota in Er.
    destruct (update_channels w) as [|[k c] bound].
    + rewrite new_dma_channel_auto in Er.
      destruct (available w); [by subst r|].
      unfold bind at 1 in Er. rewrite claim_pin_swapped in Er. by subst r.
    + assert ((let! first := index (dict_keys ((k, c) :: bound)) 0 in
               subscript ((k, c) :: bound) first) w = (Ok c, w)) as Hfirst.
      { unfold bind, index, subscript, ret. cbn. by rewrite decide_True. }
      rewrite Hfirst in Er. unfold bind at 1 in Er.
      rewrite claim_pin_swapped in Er. by subst r.
  - by vm_compute.
Qed.

Lemma ContinousServo_set_outcome (speed : Q) (self : obj) :
  ContinousServo_set speed self
  = if Qlt_bool (-1) speed && Qlt_bool speed 1
    then (Ok tt, <["speed" := VNum speed]> self)
    else (Raise InvalidSpeed, self).
Proof.
  unfold ContinousServo_set.
  destruct (Qlt_bool (-1) speed && Qlt_bool speed 1); cbn [negb]; [|done].
  by rewrite setattr_instance.
Qed.

Lemma LED_set_outcome (brightness : Q) (self : obj) :
  LED_set brightness self
  = if Qlt_bool 0 brightness && Qlt_bool brightness 100
    then (Ok tt, <["brightness" := VNum brightness]> self)
    else (Raise InvalidBrightness, self).
Proof.
  unfold LED_set.
  destruct (Qlt_bool 0 brightness && Qlt_bool brightness 100); cbn [negb];
    [|done].
  by rewrite setattr_instance.
Qed.

Lemma inside_bool (lo hi v : Q) :
  Qlt_bool lo v && Qlt_bool v hi = true <-> (lo < v)%Q ∧ (v < hi)%Q.
Proof. by rewrite andb_true_iff, !Qlt_bool_iff. Qed.

(** C8: [set(v)] raises the kind's invalid-value error (a [ValueError])
    exactly when [v] is not strictly inside the actuator's interval,
    [(0, range)] for a servo, [(-1, 1)] for a continuous servo, [(0, 100)]
    for an LED; both ends of the interval are refused; and when the error
    is raised the object is what it was before the call.  No other
    exception of [Servo.set] is a [ValueError]. *)
Theorem set_validation :
  (∀ (depth : nat) (angle range : Q) (self : obj),
     self !! "range" = Some (VNum range) ->
     (fst (Servo_set depth angle self) = Raise InvalidAngle
      <-> ¬ ((0 < angle)%Q ∧ (angle < range)%Q))
     ∧ ((∃ e, fst (Servo_set depth angle self) = Raise e
              ∧ class_of e = ValueError)
        <-> ¬ ((0 < angle)%Q ∧ (angle < range)%Q))
     ∧ (fst (Servo_set depth angle self) = Raise InvalidAngle ->
        snd (Servo_set depth angle self) = self)
     ∧ Servo_set depth 0 self = (Raise InvalidAngle, self)
     ∧ Servo_set depth range self = (Raise InvalidAngle, self))
  ∧ (∀ (speed : Q) (self : obj),
       (fst (ContinousServo_set speed self) = Raise InvalidSpeed
        <-> ¬ ((-1 < speed)%Q ∧ (speed < 1)%Q))
       ∧ (fst (ContinousServo_set speed self) = Ok tt
          <-> (-1 < speed)%Q ∧ (speed < 1)%Q)
       ∧ (fst (ContinousServo_set speed self) = Raise InvalidSpeed ->
          snd (ContinousServo_set speed self) = self)
       ∧ ContinousServo_set (-1) self = (Raise InvalidSpeed, self)
       ∧ ContinousServo_set 1 self = (Raise InvalidSpeed, self))
  ∧ (∀ (brightness : Q) (self : obj),
       (fst (LED_set brightness self) = Raise InvalidBrightness
        <-> ¬ ((0 < brightness)%Q ∧ (brightness < 100)%Q))
       ∧ (fst (LED_set brightness self) = Ok tt
          <-> (0 < brightness)%Q ∧ (brightness < 100)%Q)
       ∧ (fst (LED_set brightness self) = Raise InvalidBrightness ->
          snd (LED_set brightness self) = self)
       ∧ LED_set 0 self = (Raise InvalidBrightness, self)
       ∧ LED_set 100 self = (Raise InvalidBrightness, self))
  ∧ class_of InvalidAngle = ValueError
  ∧ class_of InvalidSpeed = ValueError
  ∧ class_of InvalidBrightness = ValueError.
Proof.
  split; [|split; [|split; [|done]]].
  - intros depth angle range self Hrange.
    pose proof (Servo_set_outcome depth angle range self Hrange) as Hset.
    pose proof (inside_bool 0 range angle) as Hin.
    assert (∀ v, Qlt_bool 0 v && Qlt_bool v range = false ->
                 Servo_set depth v self = (Raise InvalidAngle, self)) as Hout.
    { intros v Hv.
      pose proof (Servo_set_outcome depth v range self Hrange) as Hv'.
      by rewrite Hv in Hv'. }
    destruct (Qlt_bool 0 angle && Qlt_bool angle range).
    + destruct Hset as (e & -> & He). cbn [fst snd].
      split; [|split; [|split; [|split]]].
      * split; [intros [= ->]; done | intros Hn; exfalso; apply Hn, Hin; done].
      * split; [intros (e' & [= <-] & He'); done
               | intros Hn; exfalso; apply Hn, Hin; done].
      * intros [= ->]. done.
      * apply Hout. apply not_true_iff_false. rewrite inside_bool.
        intros [H0 _]. by apply Qlt_irrefl in H0.
      * apply Hout. apply not_true_iff_false. rewrite inside_bool.
        intros [_ H0]. by apply Qlt_irrefl in H0.
    + rewrite Hset. cbn [fst snd].
      split; [|split; [|split; [|split]]].
      * split; [intros _; rewrite <- Hin; done | done].
      * split; [intros _; rewrite <- Hin; done | by exists InvalidAngle].
      * done.
      * apply Hout. apply not_true_iff_false. rewrite inside_bool.
        intros [H0 _]. by apply Qlt_irrefl in H0.
      * apply Hout. apply not_true_iff_false. rewrite inside_bool.
        intros [_ H0]. by apply Qlt_irrefl in H0.
  - intros speed self. rewrite !ContinousServo_set_outcome.
    pose proof (inside_bool (-1) 1 speed) as Hin.
    split; [|split; [|split; [|split]]]; [| | |done..];
      destruct (Qlt_bool (-1) speed && Qlt_bool speed 1); cbn [fst snd];
      try rewrite <- Hin; try done; split; done.
  - intros brightness self. rewrite !LED_set_outcome.
    pose proof (inside_bool 0 100 brightness) as Hin.
    split; [|split; [|split; [|split]]]; [| | |done..];
      destruct (Qlt_bool 0 brightness && Qlt_bool brightness 100);
      cbn [fst snd]; try rewrite <- Hin; try done; split; done.
Qed.

(** A call on a servo stores nothing, or stores an angle strictly inside
    the interval; the range is never touched. *)
Lemma Servo_call_effect (depth : nat) (range : Q) (c : call) (self : obj) :
  self !! "range" = Some (VNum range) ->
  snd (Servo_call depth c self) = self
  ∨ ∃ v : Q, snd (Servo_call depth c self) = <["angle" := VNum v]> self
             ∧ (0 < v)%Q ∧ (v < range)%Q.
Proof.
  intros Hrange.
  assert (∀ v, snd (Servo_set depth v self) = self
               ∨ ∃ v' : Q, snd (Servo_set depth v self)
                           = <["angle" := VNum v']> self
                           ∧ (0 < v')%Q ∧ (v' < range)%Q) as Hset.
  { intros v. pose proof (Servo_set_outcome depth v range self Hrange) as H.
    destruct (Qlt_bool 0 v && Qlt_bool v range) eqn:Hin.
    - destruct H as (e & -> & _). right. exists v.
      by apply inside_bool in Hin.
    - left. by rewrite H. }
  destruct c as [v|change]; cbn [Servo_call]; [apply Hset|].
  unfold Servo_increment, bind, getattr, num, ret, raise.
  destruct (self !! "angle") as [a|]; [|by left].
  destruct (as_num a) as [qa|]; [|by left].
  apply Hset.
Qed.

Lemma ContinousServo_call_effect (c : call) (self : obj) :
  snd (ContinousServo_call c self) = self
  ∨ ∃ v : Q, snd (ContinousServo_call c self) = <["speed" := VNum v]> self
             ∧ (-1 < v)%Q ∧ (v < 1)%Q.
Proof.
  assert (∀ v, snd (ContinousServo_set v self) = self
               ∨ ∃ v' : Q, snd (ContinousServo_set v self)
                           = <["speed" := VNum v']> self
                           ∧ (-1 < v')%Q ∧ (v' < 1)%Q) as Hset.
  { intros v. rewrite ContinousServo_set_outcome.
    destruct (Qlt_bool (-1) v && Qlt_bool v 1) eqn:Hin; [|by left].
    right. exists v. by apply inside_bool in Hin. }
  destruct c as [v|change]; cbn [ContinousServo_call]; [apply Hset|].
  unfold ContinousServo_increment, bind, getattr, num, ret, raise.
  destruct (self !! "speed") as [a|]; [|by left].
  destruct (as_num a) as [qa|]; [|by left].
  apply Hset.
Qed.

Lemma LED_set_effect (brightness : Q) (self : obj) :
  snd (LED_set brightness self) = self
  ∨ ∃ v : Q, snd (LED_set brightness self) = <["brightness" := VNum v]> self
             ∧ (0 < v)%Q ∧ (v < 100)%Q.
Proof.
  rewrite LED_set_outcome.
  destruct (Qlt_bool 0 brightness && Qlt_bool brightness 100) eqn:Hin;
    [|by left].
  right. exists brightness. by apply inside_bool in Hin.
Qed.

Lemma Servo_calls_inside (depth : nat) (range : Q) (calls : list call)
    (self : obj) :
  self !! "range" = Some (VNum range) ->
  strictly_inside 0 range "angle" self ->
  strictly_inside 0 range "angle" (run_calls (Servo_call depth) calls self).
Proof.
  revert self. induction calls as [|c calls IH]; intros self Hrange Hin;
    [done|].
  cbn [run_calls].
  destruct (Servo_call_effect depth range c self Hrange)
    as [-> | (v & -> & Hv)]; [by apply IH|].
  apply IH.
  - by rewrite lookup_insert_ne.
  - exists v. by rewrite lookup_insert_eq.
Qed.

Lemma LED_sets_inside (sets : list Q) (self : obj) :
  strictly_inside 0 100 "brightness" self ->
  strictly_inside 0 100 "brightness" (run_calls LED_set sets self).
Proof.
  revert self. induction sets as [|b sets IH]; intros self Hin; [done|].
  cbn [run_calls].
  destruct (LED_set_effect b self) as [-> | (v & -> & Hv)]; [by apply IH|].
  apply IH. exists v. by rewrite lookup_insert_eq.
Qed.

Lemma Servo_calls_effect (depth : nat) (range : Q) (calls : list call)
    (self : obj) :
  self !! "range" = Some (VNum range) ->
  run_calls (Servo_call depth) calls self = self
  ∨ strictly_inside 0 range "angle" (run_calls (Servo_call depth) calls self).
Proof.
  intros Hrange. induction calls as [|c calls IH]; [by left|].
  cbn [run_calls].
  destruct (Servo_call_effect depth range c self Hrange)
    as [-> | (v & -> & Hv)]; [exact IH|].
  right. apply Servo_calls_inside.
  - by rewrite lookup_insert_ne.
  - exists v. by rewrite lookup_insert_eq.
Qed.

Lemma LED_sets_effect (sets : list Q) (self : obj) :
  run_calls LED_set sets self = self
  ∨ strictly_inside 0 100 "brightness" (run_calls LED_set sets self).
Proof.
  induction sets as [|b sets IH]; [by left|].
  cbn [run_calls].
  destruct (LED_set_effect b self) as [-> | (v & -> & Hv)]; [exact IH|].
  right. apply LED_sets_inside. exists v. by rewrite lookup_insert_eq.
Qed.

Lemma strictly_inside_nonzero (hi : Q) (attr : string) (self : obj) :
  strictly_inside 0 hi attr self ->
  ∃ v : Q, self !! attr = Some (VNum v) ∧ ¬ (v == 0)%Q.
Proof.
  intros (v & Hv & Hlo & _). exists v. split; [done|].
  intros Hz. rewrite Hz in Hlo. by apply Qlt_irrefl in Hlo.
Qed.

(** C10, amended: for a servo and for an LED the initial value 0 is
    refused by [set]; a series of [set] and [increment] calls either leaves
    the object as it was or leaves a stored value strictly inside the
    interval, and once the stored value is strictly inside it stays
    strictly inside, hence different from 0, through every further series
    of calls.  For a continuous servo the stored speed likewise stays
    strictly inside (-1, 1), but 0 is inside that interval: [set(0)] is
    accepted and stores 0. *)
Theorem stored_value_stays_inside :
  (∀ (depth : nat) (range : Q) (self : obj),
     self !! "range" = Some (VNum range) ->
     Servo_set depth 0 self = (Raise InvalidAngle, self)
     ∧ (∀ calls : list call,
          run_calls (Servo_call depth) calls self = self
          ∨ strictly_inside 0 range "angle"
              (run_calls (Servo_call depth) calls self))
     ∧ (∀ calls : list call,
          strictly_inside 0 range "angle" self ->
          strictly_inside 0 range "angle"
            (run_calls (Servo_call depth) calls self)
          ∧ ∃ v : Q,
              run_calls (Servo_call depth) calls self !! "angle"
              = Some (VNum v) ∧ ¬ (v == 0)%Q))
  ∧ (∀ (self : obj),
       LED_set 0 self = (Raise InvalidBrightness, self)
       ∧ (∀ sets : list Q,
            run_calls LED_set sets self = self
            ∨ strictly_inside 0 100 "brightness"
                (run_calls LED_set sets self))
       ∧ (∀ sets : list Q,
            strictly_inside 0 100 "brightness" self ->
            strictly_inside 0 100 "brightness" (run_calls LED_set sets self)
            ∧ ∃ v : Q,
                run_calls LED_set sets self !! "brightness" = Some (VNum v)
                ∧ ¬ (v == 0)%Q))
  ∧ (∀ (self : obj),
       ContinousServo_set 0 self = (Ok tt, <["speed" := VNum 0]> self)
       ∧ (∀ c : call,
            snd (ContinousServo_call c self) = self
            ∨ strictly_inside (-1) 1 "speed"
                (snd (ContinousServo_call c self)))).
Proof.
  split; [|split].
  - intros depth range self Hrange. split; [|split].
    + pose proof (Servo_set_outcome depth 0 range self Hrange) as H.
      by cbn in H.
    + intros calls. by apply Servo_calls_effect.
    + intros calls Hin.
      pose proof (Servo_calls_inside depth range calls self Hrange Hin) as H.
      split; [done|]. by eapply strictly_inside_nonzero.
  - intros self. split; [|split].
    + by rewrite LED_set_outcome.
    + intros sets. apply LED_sets_effect.
    + intros sets Hin. pose proof (LED_sets_inside sets self Hin) as H.
      split; [done|]. by eapply strictly_inside_nonzero.
  - intros self. split.
    + by rewrite ContinousServo_set_outcome.
    + intros c.
      destruct (ContinousServo_call_effect c self) as [-> | (v & -> & Hv)];
        [by left|].
      right. exists v. by rewrite lookup_insert_eq.
Qed.

(** ** Pin claims *)

(** C5: claiming a pin that is in the claim set raises the
    pin-already-claimed error (an [AttributeError]) and changes nothing;
    claiming a pin that is not in it succeeds, sets the pin's direction
    through the driver ([RPIO.setup], input for ['in'], ['IN'] and
    [RPIO.IN], output otherwise) and maps the pin to the comment, leaving
    every other claim as it was. *)
Theorem claim_pin_spec (pin : Z) (io_type : value) (comment : string)
    (w : World) :
  (pin ∈ dom (used_pins (config w)) ->
     claim_pin pin VConfig io_type comment w
       = (Raise (PinAlreadyClaimed pin), w)
     ∧ class_of (PinAlreadyClaimed pin) = AttributeError)
  ∧ (pin ∉ dom (used_pins (config w)) ->
     ∃ w',
       claim_pin pin VConfig io_type comment w = (Ok tt, w')
       ∧ used_pins (config w') = <[pin := comment]> (used_pins (config w))
       ∧ used_pins (config w') !! pin = Some comment
       ∧ rpio w' = rpio w ++
           [RPIO_setup pin
              (if py_in io_type [VStr "in"; VStr "IN"; VInt RPIO_IN]
               then RPIO_IN else RPIO_OUT)]
       ∧ update_channels w' = update_channels w
       ∧ channel_servos w' = channel_servos w
       ∧ reserved_channels (config w') = reserved_channels (config w)).
Proof.
  split; intros Hpin.
  - split; [|done].
    unfold claim_pin, attr_used_pins, bind, gets; simpl.
    by rewrite bool_decide_eq_true_2.
  - eexists. split.
    + unfold claim_pin, attr_used_pins, bind, gets, modify; simpl.
      rewrite bool_decide_eq_false_2 by done. reflexivity.
    + simpl. by rewrite lookup_insert_eq.
Qed.

(** * Further properties *)

(** ** Claiming and releasing pins *)

Lemma claim_pin_eq (pin : Z) (io_type : value) (comment : string)
    (w : World) :
  claim_pin pin VConfig io_type comment w
  = if bool_decide (pin ∈ dom (used_pins (config w)))
    then (Raise (PinAlreadyClaimed pin), w)
    else (Ok tt,
          set_used_pins <[pin := comment]>
            (driver_call
               (RPIO_setup pin
                  (if py_in io_type [VStr "in"; VStr "IN"; VInt RPIO_IN]
                   then RPIO_IN else RPIO_OUT)) w)).
Proof.
  unfold claim_pin, attr_used_pins, bind, gets, modify, raise. cbn.
  by case_bool_decide.
Qed.

Lemma release_pin_eq (pin : Z) (w : World) :
  release_pin pin VConfig w
  = (Ok tt,
     if bool_decide (pin ∈ dom (used_pins (config w)))
     then set_used_pins (delete pin) w
     else if echo (config w) then warn ReleaseUnclaimedPin w else w).
Proof.
  unfold release_pin, attr_used_pins, attr_echo, bind, gets, modify, ret.
  cbn. case_bool_decide; [done|]. by destruct (echo (config w)).
Qed.

(** X1: a pin that is free can be claimed and released again, and the
    release undoes the claim: both calls return, the configuration (claim
    table included) is what it was, no diagnostic is emitted, and the pin
    can be claimed anew.  The release makes no call to the driver, so the
    direction set by the claim stays. *)
Theorem claim_then_release (pin : Z) (io_type : value) (comment : string)
    (w : World) :
  pin ∉ dom (used_pins (config w)) ->
  ∃ w1 w2,
    claim_pin pin VConfig io_type comment w = (Ok tt, w1)
    ∧ release_pin pin VConfig w1 = (Ok tt, w2)
    ∧ config w2 = config w
    ∧ warned w2 = warned w
    ∧ rpio w2 = rpio w1
    ∧ length (rpio w1) = S (length (rpio w))
    ∧ fst (claim_pin pin VConfig io_type comment w2) = Ok tt.
Proof.
  intros Hfree.
  assert (used_pins (config w) !! pin = None) as Hnone
    by (by apply not_elem_of_dom).
  set (mode := if py_in io_type [VStr "in"; VStr "IN"; VInt RPIO_IN]
               then RPIO_IN else RPIO_OUT).
  set (w1 := set_used_pins <[pin := comment]>
               (driver_call (RPIO_setup pin mode) w)).
  set (w2 := set_used_pins (delete pin) w1).
  assert (config w2 = config w) as Hcfg.
  { unfold w2, w1. cbn. rewrite delete_insert_id by done.
    by destruct (config w). }
  exists w1, w2.
  split; [by rewrite claim_pin_eq, bool_decide_eq_false_2|].
  split.
  { rewrite release_pin_eq, bool_decide_eq_true_2; [done|].
    cbn. apply elem_of_dom. rewrite lookup_insert_eq. by eexists. }
  split; [exact Hcfg|]. split; [done|]. split; [done|].
  split; [cbn; rewrite length_app; cbn; lia|].
  rewrite claim_pin_eq, bool_decide_eq_false_2; [done|].
  by rewrite Hcfg.
Qed.

(** X2: with the configuration object, [release_pin] never raises and
    never calls the driver.  Afterwards the pin is not in the claim table
    and the other pins' claims are untouched; a diagnostic is emitted
    exactly when the pin was not claimed and [echo] is on, so a second
    release of the same pin changes nothing but possibly the diagnostics. *)
Theorem release_pin_total (pin : Z) (w : World) :
  ∃ w',
    release_pin pin VConfig w = (Ok tt, w')
    ∧ used_pins (config w') = delete pin (used_pins (config w))
    ∧ (pin ∉ dom (used_pins (config w')))
    ∧ (∀ q, q ≠ pin ->
            used_pins (config w') !! q = used_pins (config w) !! q)
    ∧ rpio w' = rpio w
    ∧ warned w'
      = warned w ++
        (if bool_decide (pin ∈ dom (used_pins (config w))) then []
         else if echo (config w) then [ReleaseUnclaimedPin] else [])
    ∧ used_pins (config (snd (release_pin pin VConfig w')))
      = used_pins (config w').
Proof.
  eexists. split; [apply release_pin_eq|].
  assert (∀ w0 : World,
            used_pins (config
              (if bool_decide (pin ∈ dom (used_pins (config w0)))
               then set_used_pins (delete pin) w0
               else if echo (config w0)
                    then warn ReleaseUnclaimedPin w0 else w0))
            = delete pin (used_pins (config w0))) as Hpins.
  { intros w0. case_bool_decide as Hin; [done|].
    apply not_elem_of_dom in Hin. rewrite delete_id by done.
    by destruct (echo (config w0)). }
  rewrite Hpins. split; [done|].
  split; [apply not_elem_of_dom, lookup_delete_eq|].
  split; [by intros q Hq; rewrite lookup_delete_ne|].
  split; [case_bool_decide; [done | by destruct (echo (config w))]|].
  split.
  - case_bool_decide; cbn; [by rewrite app_nil_r|].
    destruct (echo (config w)); cbn; [done | by rewrite app_nil_r].
  - rewrite release_pin_eq. cbn [snd]. rewrite Hpins, Hpins.
    apply delete_delete_eq.
Qed.

(** X3: a claim concerns its own pin only.  Claiming [p] changes neither
    the entry of another pin [q] nor the outcome of a later claim of [q],
    and two claims of different free pins give the same claim table in
    either order. *)
Theorem claim_pin_frame (p q : Z) (io_type : value) (comment : string)
    (w : World) :
  p ≠ q ->
  let w1 := snd (claim_pin p VConfig io_type comment w) in
  used_pins (config w1) !! q = used_pins (config w) !! q
  ∧ (∀ io_type' comment',
       fst (claim_pin q VConfig io_type' comment' w1)
       = fst (claim_pin q VConfig io_type' comment' w))
  ∧ (∀ io_type' comment',
       used_pins
         (config (snd (claim_pin q VConfig io_type' comment' w1)))
       = used_pins
           (config
              (snd (claim_pin p VConfig io_type comment
                      (snd (claim_pin q VConfig io_type' comment' w)))))).
Proof.
  intros Hne w1.
  assert (∀ (x : Z) io c (w0 : World),
            used_pins (config (snd (claim_pin x VConfig io c w0)))
            = if bool_decide (x ∈ dom (used_pins (config w0)))
              then used_pins (config w0)
              else <[x := c]> (used_pins (config w0))) as Hpins.
  { intros x io c w0. rewrite claim_pin_eq. by case_bool_decide. }
  assert (∀ (x : Z) io c (w0 : World),
            fst (claim_pin x VConfig io c w0)
            = if bool_decide (x ∈ dom (used_pins (config w0)))
              then Raise (PinAlreadyClaimed x) else Ok tt) as Hout.
  { intros x io c w0. rewrite claim_pin_eq. by case_bool_decide. }
  assert (used_pins (config w1) !! q = used_pins (config w) !! q) as Hq.
  { unfold w1. rewrite Hpins. case_bool_decide; [done|].
    by rewrite lookup_insert_ne. }
  assert (q ∈ dom (used_pins (config w1))
          <-> q ∈ dom (used_pins (config w))) as Hdom
    by (by rewrite !elem_of_dom, Hq).
  split; [exact Hq|]. split.
  - intros io' c'. rewrite !Hout.
    by rewrite (bool_decide_ext _ _ Hdom).
  - intros io' c'. rewrite !Hpins. fold w1.
    rewrite (bool_decide_ext _ _ Hdom). unfold w1. rewrite Hpins.
    destruct (bool_decide (p ∈ dom (used_pins (config w)))) eqn:Hp;
      destruct (bool_decide (q ∈ dom (used_pins (config w)))) eqn:Hqd;
      rewrite ?Hp; try done.
    + rewrite bool_decide_eq_true_2; [done|].
      apply bool_decide_eq_true in Hp. apply elem_of_dom.
      rewrite lookup_insert_ne by done. by apply elem_of_dom.
    + rewrite bool_decide_eq_false_2.
      * by apply insert_insert_ne.
      * apply bool_decide_eq_false in Hp. intros Hin. apply Hp.
        apply elem_of_dom in Hin. rewrite lookup_insert_ne in Hin by done.
        by apply elem_of_dom.
Qed.

(** ** What the controller's interface does to the world *)

Lemma new_servo_eq name pin update range_of_motion pulse reverse
    (w : World) :
  new_servo name pin update range_of_motion pulse reverse w
  = match get_servo_channel update w with
    | (Ok _, w1) => (Raise (NoAttribute "used_pins"), w1)
    | (Raise e, w1) => (Raise e, w1)
    end.
Proof.
  unfold new_servo. unfold bind at 1.
  destruct (get_servo_channel update w) as [[ch|e] w1]; [|done].
  unfold bind at 1. by rewrite claim_pin_swapped.
Qed.

Lemma new_continuous_servo_eq name pin pulse reverse (w : World) :
  new_continuous_servo name pin pulse reverse w
  = match get_servo_channel None w with
    | (Ok _, w1) => (Raise (NoAttribute "used_pins"), w1)
    | (Raise e, w1) => (Raise e, w1)
    end.
Proof.
  unfold new_continuous_servo. unfold bind at 1.
  destruct (get_servo_channel None w) as [[ch|e] w1]; [|done].
  unfold bind at 1. by rewrite claim_pin_swapped.
Qed.

Lemma new_led_eq name pin (w : World) :
  new_led name pin w
  = match update_channels w with
    | [] =>
        match new_dma_channel None None w with
        | (Ok _, w1) => (Raise (NoAttribute "used_pins"), w1)
        | (Raise e, w1) => (Raise e, w1)
        end
    | _ :: _ => (Raise (NoAttribute "used_pins"), w)
    end.
Proof.
  unfold new_led. unfold bind at 1 2. unfold gets at 1. cbn beta iota.
  destruct (update_channels w) as [|[k c] bound].
  - destruct (new_dma_channel None None w) as [[c|e] w1]; [|done].
    unfold bind at 1. by rewrite claim_pin_swapped.
  - assert ((let! first := index (dict_keys ((k, c) :: bound)) 0 in
             subscript ((k, c) :: bound) first) w = (Ok c, w)) as ->.
    { unfold bind, index, subscript, ret. cbn. by rewrite decide_True. }
    unfold bind at 1. by rewrite claim_pin_swapped.
Qed.

Lemma after_warning_untouched (u : option Z) (w : World) :
  untouched w (after_warning u w).
Proof.
  unfold after_warning, untouched. case_bool_decide; [|done].
  by destruct (echo (config w)).
Qed.

Lemma new_dma_channel_untouched (u : option Z) (w : World) :
  untouched w (snd (new_dma_channel u None w)).
Proof.
  rewrite new_dma_channel_auto.
  destruct (available w); apply after_warning_untouched.
Qed.

Lemma new_servo_channel_untouched (u : option Z) (w : World) :
  untouched w (snd (new_servo_channel u None w)).
Proof.
  rewrite new_servo_channel_auto.
  destruct (available w); apply after_warning_untouched.
Qed.

Lemma get_servo_channel_untouched (u : option Z) (w : World) :
  untouched w (snd (get_servo_channel u w)).
Proof.
  rewrite get_servo_channel_eq.
  destruct (bound_servo_channel u w); [done|].
  destruct u as [u|]; [|apply new_servo_channel_untouched].
  case_bool_decide; [apply new_servo_channel_untouched | done].
Qed.

Lemma api_step_channel_step (w w' : World) :
  api_step w w' -> channel_step w w'.
Proof.
  intros [name pin update range_of_motion pulse reverse
         | name pin pulse reverse | name pin | u].
  - apply new_servo_step.
  - apply new_continuous_servo_step.
  - apply new_led_step.
  - apply get_servo_channel_step.
Qed.

(** X4: no call of the controller's interface ever claims a pin, calls
    [RPIO.setup] or registers an actuator: after [new_servo],
    [new_continuous_servo], [new_led] or [get_servo_channel], with any
    arguments, the configuration (claim table, reserved channels, echo),
    the driver's trace and the three registries are what they were. *)
Theorem interface_leaves_pins_alone (w w' : World) :
  api_step w w' ->
  config w' = config w ∧ rpio w' = rpio w ∧ servos w' = servos w
  ∧ leds w' = leds w ∧ actuators w' = actuators w.
Proof.
  intros [name pin update range_of_motion pulse reverse
         | name pin pulse reverse | name pin | u].
  - rewrite new_servo_eq.
    pose proof (get_servo_channel_untouched update w) as H.
    by destruct (get_servo_channel update w) as [[ch|e] w1].
  - rewrite new_continuous_servo_eq.
    pose proof (get_servo_channel_untouched None w) as H.
    by destruct (get_servo_channel None w) as [[ch|e] w1].
  - rewrite new_led_eq.
    pose proof (new_dma_channel_untouched None w) as H.
    destruct (update_channels w); [|done].
    by destruct (new_dma_channel None None w) as [[ch|e] w1].
  - apply get_servo_channel_untouched.
Qed.

(** X5: a constructor that fails keeps the channel it resolved.  When the
    update cycle [u] is not bound, its number is not the key of a servo
    channel and [c] is the lowest free id, [new_servo] raises the
    [AttributeError] of its [claim_pin] call and still leaves [u] bound to
    [c], with a servo channel for [c], so that [c] is no longer free. *)
Theorem new_servo_keeps_channel name pin (u : Z) range_of_motion pulse
    reverse (w : World) (c : Z) :
  dict_get (Some u) (update_channels w) = None ->
  channel_servos w !! u = None ->
  head (available w) = Some c ->
  let r := new_servo name pin (Some u) range_of_motion pulse reverse w in
  fst r = Raise (NoAttribute "used_pins")
  ∧ dict_get (Some u) (update_channels (snd r)) = Some c
  ∧ channel_servos (snd r) !! c = Some (mkPWMServo c (Some u))
  ∧ ¬ free (snd r) c
  ∧ used_pins (config (snd r)) = used_pins (config w).
Proof.
  intros Hu Hs Hc r. unfold r.
  rewrite new_servo_eq, get_servo_channel_unbound by done.
  rewrite new_servo_channel_auto.
  destruct (after_warning_fields (Some u) w) as (_ & _ & Hcfg & _).
  destruct (available w) as [|c' rest]; [done|]. injection Hc as ->.
  cbn. rewrite dict_get_set_eq, lookup_insert_eq, Hcfg.
  repeat split; try done.
  intros (_ & _ & Hfree). cbn in Hfree.
  by rewrite lookup_insert_eq in Hfree.
Qed.

Lemma available_insert (w w' : World) (c : Z) (ch : PWMServo)
    (rest : list Z) :
  channel_servos w' = <[c := ch]> (channel_servos w) ->
  reserved_channels (config w') = reserved_channels (config w) ->
  available w = c :: rest -> available w' = rest.
Proof.
  intros Hs Hr Hav. unfold available in *. rewrite Hs, Hr.
  eapply filter_drop_head; [apply NoDup_seqZ | exact Hav |].
  intros x. cbn beta. rewrite lookup_insert_None.
  intuition congruence.
Qed.

(** X6: the controller never gives a channel back.  Over any call of its
    interface the servo channels already recorded stay as they are, the
    reserved list is unchanged, an id that is free afterwards was free
    before, and at most one id, the lowest free one, stops being free. *)
Theorem channels_never_freed (w w' : World) :
  api_step w w' ->
  channel_servos w ⊆ channel_servos w'
  ∧ reserved_channels (config w') = reserved_channels (config w)
  ∧ (∀ x, free w' x -> free w x)
  ∧ (available w' = available w ∨ available w' = tail (available w)).
Proof.
  intros Hstep. apply api_step_channel_step in Hstep.
  destruct Hstep as [(Hu & Hs & Hr) | u c Hc Hu Hs Hr | c Hc Hu Hs Hr].
  - rewrite Hs, Hr. split; [done|]. split; [done|].
    split; [|left; by apply available_same].
    unfold free. by rewrite Hs, Hr.
  - assert (channel_servos w !! c = None) as Hfree.
    { apply available_head in Hc as [(_ & _ & H) _]. exact H. }
    split; [rewrite Hs; by apply insert_subseteq|]. split; [done|].
    split.
    + unfold free. rewrite Hs, Hr. intros x (Hx & Hxr & Hxs).
      apply lookup_insert_None in Hxs as [Hxs _]. done.
    + right. destruct (available w) as [|c' rest] eqn:Hav; [done|].
      injection Hc as ->. cbn. by eapply available_insert.
  - rewrite Hs, Hr. split; [done|]. split; [done|].
    split; [|left; by apply available_same].
    unfold free. by rewrite Hs, Hr.
Qed.

Lemma bare_channel_step (w w' : World) :
  bare_channel_is_next w -> channel_step w w' -> bare_channel_is_next w'.
Proof.
  intros Hbare Hstep c1.
  destruct Hstep as [(Hu & Hs & Hr) | u c Hc Hu Hs Hr | c Hc Hu Hs Hr].
  - rewrite Hu, Hs, (available_same w w') by done. apply Hbare.
  - rewrite Hu, Hs. destruct (decide (u = None)) as [->|Hne].
    + rewrite dict_get_set_eq. intros [= <-]. left.
      rewrite lookup_insert_eq. by eexists.
    + rewrite dict_get_set_ne by done. intros Hb. left.
      destruct (decide (c = c1)) as [<-|Hc1];
        [rewrite lookup_insert_eq; by eexists|].
      rewrite lookup_insert_ne by done.
      destruct (Hbare c1 Hb) as [|Hnext]; [done | congruence].
  - rewrite Hu, Hs, (available_same w w') by done.
    rewrite dict_get_set_eq. intros [= <-]. by right.
Qed.

Lemma reachable_bare_channel (w : World) :
  reachable w -> bare_channel_is_next w.
Proof.
  induction 1 as [cfg | w ? ? ? ? ? ? _ IH | w ? ? ? ? _ IH
                 | w ? ? _ IH | w ? _ IH].
  - by intros c.
  - eapply bare_channel_step; [exact IH | apply new_servo_step].
  - eapply bare_channel_step; [exact IH | apply new_continuous_servo_step].
  - eapply bare_channel_step; [exact IH | apply new_led_step].
  - eapply bare_channel_step; [exact IH | apply get_servo_channel_step].
Qed.

Lemma servo_ids_step (w w' : World) :
  (∀ c, is_Some (channel_servos w !! c) -> 0 <= c < 15) ->
  channel_step w w' ->
  ∀ c, is_Some (channel_servos w' !! c) -> 0 <= c < 15.
Proof.
  intros Hin Hstep c1.
  destruct Hstep as [(Hu & Hs & Hr) | u c Hc Hu Hs Hr | c Hc Hu Hs Hr];
    rewrite Hs; [apply Hin | | apply Hin].
  destruct (decide (c = c1)) as [<-|Hne].
  - intros _. by apply available_head in Hc as [(? & _) _].
  - rewrite lookup_insert_ne by done. apply Hin.
Qed.

Lemma reachable_servo_ids (w : World) :
  reachable w -> ∀ c, is_Some (channel_servos w !! c) -> 0 <= c < 15.
Proof.
  induction 1 as [cfg | w ? ? ? ? ? ? _ IH | w ? ? ? ? _ IH
                 | w ? ? _ IH | w ? _ IH].
  - intros c [ch Hc]. cbn in Hc. by rewrite lookup_empty in Hc.
  - eapply servo_ids_step; [exact IH | apply new_servo_step].
  - eapply servo_ids_step; [exact IH | apply new_continuous_servo_step].
  - eapply servo_ids_step; [exact IH | apply new_led_step].
  - eapply servo_ids_step; [exact IH | apply get_servo_channel_step].
Qed.

(** When the [try] block of [get_servo_channel] fails in a consistent
    state for a key that is bound, the key is [None], bound without a servo
    channel to the id the allocator picks next. *)
Lemma unresolved_binding (w : World) (u : option Z) (c : Z) :
  consistent w -> bare_channel_is_next w ->
  bound_servo_channel u w = None ->
  dict_get u (update_channels w) = Some c ->
  u = None ∧ head (available w) = Some c.
Proof.
  intros [H1 _ _ _] Hbare Hb Hu. destruct u as [u|].
  - exfalso. unfold bound_servo_channel in Hb. cbn in Hb.
    rewrite Hu in Hb. cbn in Hb. destruct (H1 u c Hu) as [ch Hch].
    congruence.
  - split; [done|]. destruct (Hbare c Hu) as [[ch Hch]|]; [|done].
    exfalso. unfold bound_servo_channel in Hb.
    destruct (update_channels w) as [|[k0 c0] rest] eqn:Hbound; [done|].
    cbn in Hb. rewrite decide_True in Hb by done. cbn in Hb.
    destruct k0 as [u0|].
    + destruct (H1 u0 c0) as [ch0 Hch0];
        [cbn; by rewrite decide_True | congruence].
    + cbn in Hu. rewrite decide_True in Hu by done. congruence.
Qed.

Lemma get_servo_channel_keeps_bindings (w : World) (u k : option Z)
    (c : Z) :
  consistent w -> bare_channel_is_next w ->
  dict_get k (update_channels w) = Some c ->
  dict_get k (update_channels (snd (get_servo_channel u w))) = Some c.
Proof.
  intros Hcons Hbare Hk. rewrite get_servo_channel_eq.
  destruct (bound_servo_channel u w) eqn:Hb; [done|].
  assert (dict_get k (update_channels (snd (new_servo_channel u None w)))
          = Some c) as Halloc.
  { rewrite new_servo_channel_auto.
    destruct (after_warning_fields u w) as (Hu & _).
    destruct (available w) as [|c0 rest] eqn:Hav; cbn; rewrite Hu; [done|].
    destruct (decide (u = k)) as [->|Hne];
      [|by rewrite dict_get_set_ne].
    rewrite dict_get_set_eq.
    destruct (unresolved_binding w k c Hcons Hbare Hb Hk) as [_ Hnext].
    rewrite Hav in Hnext. by injection Hnext as ->. }
  destruct u as [u|]; [|done]. by case_bool_decide.
Qed.

(** X7: bindings are permanent.  In a reachable state, once a key of
    [update_channels] (an update cycle, or [None]) is bound to a channel
    id, no call of the controller's interface changes or removes that
    binding. *)
Theorem bindings_are_permanent (w w' : World) (k : option Z) (c : Z) :
  reachable w -> api_step w w' ->
  dict_get k (update_channels w) = Some c ->
  dict_get k (update_channels w') = Some c.
Proof.
  intros Hw Hstep Hk.
  pose proof (reachable_consistent w Hw) as Hcons.
  pose proof (reachable_bare_channel w Hw) as Hbare.
  destruct Hstep as [name pin update range_of_motion pulse reverse
                    | name pin pulse reverse | name pin | u].
  - rewrite new_servo_eq.
    pose proof (get_servo_channel_keeps_bindings w update k c Hcons Hbare Hk)
      as H.
    by destruct (get_servo_channel update w) as [[ch|e] w1].
  - rewrite new_continuous_servo_eq.
    pose proof (get_servo_channel_keeps_bindings w None k c Hcons Hbare Hk)
      as H.
    by destruct (get_servo_channel None w) as [[ch|e] w1].
  - rewrite new_led_eq.
    destruct (update_channels w) as [|b bound] eqn:Hbound; [done|].
    cbn [snd]. by rewrite Hbound.
  - by apply get_servo_channel_keeps_bindings.
Qed.

(** X8: asking twice is asking once.  In any state, when
    [get_servo_channel] returns a servo channel for an update cycle, a
    second call for that cycle returns the same servo channel and changes
    nothing; the same holds for the call without update cycle in every
    reachable state. *)
Theorem get_servo_channel_idempotent :
  (∀ (w w1 : World) (u : Z) (ch : PWMServo),
     get_servo_channel (Some u) w = (Ok ch, w1) ->
     get_servo_channel (Some u) w1 = (Ok ch, w1))
  ∧ (∀ (w w1 : World) (ch : PWMServo),
       reachable w ->
       get_servo_channel None w = (Ok ch, w1) ->
       get_servo_channel None w1 = (Ok ch, w1)).
Proof.
  assert (∀ (w w1 : World) (u : option Z) (ch : PWMServo),
            new_servo_channel u None w = (Ok ch, w1) ->
            ∃ c, dict_get u (update_channels w1) = Some c
                 ∧ channel_servos w1 !! c = Some ch
                 ∧ update_channels w1
                   = dict_set u c (update_channels w)) as Halloc.
  { intros w w1 u ch. rewrite new_servo_channel_auto.
    destruct (after_warning_fields u w) as (Hu & _).
    destruct (available w) as [|c rest]; [done|].
    intros [= <- <-]. exists c. cbn.
    by rewrite dict_get_set_eq, lookup_insert_eq, Hu. }
  split.
  - intros w w1 u ch. rewrite !get_servo_channel_eq.
    destruct (bound_servo_channel (Some u) w) as [ch'|] eqn:Hb.
    + intros [= <- <-]. by rewrite Hb.
    + intros Hget.
      assert (new_servo_channel (Some u) None w = (Ok ch, w1)) as Hnew
        by (by case_bool_decide).
      destruct (Halloc _ _ _ _ Hnew) as (c & Hu & Hc & _).
      unfold bound_servo_channel. cbn. rewrite Hu. cbn. by rewrite Hc.
  - intros w w1 ch Hw. rewrite !get_servo_channel_eq.
    destruct (bound_servo_channel None w) as [ch'|] eqn:Hb.
    + intros [= <- <-]. by rewrite Hb.
    + intros Hnew. destruct (Halloc _ _ _ _ Hnew) as (c & Hu & Hc & Hset).
      assert (head (dict_keys (update_channels w1)) = Some None) as Hhead.
      { rewrite Hset.
        destruct (update_channels w) as [|[k0 c0] rest] eqn:Hbound;
          [done|].
        destruct k0 as [u0|]; [|cbn; by rewrite decide_True].
        exfalso. destruct (reachable_consistent w Hw) as [H1 _ _ _].
        destruct (H1 u0 c0) as [ch0 Hch0];
          [rewrite Hbound; cbn; by rewrite decide_True|].
        unfold bound_servo_channel in Hb. rewrite Hbound in Hb.
        cbn in Hb. rewrite decide_True in Hb by done. cbn in Hb.
        congruence. }
      unfold bound_servo_channel. rewrite Hhead. cbn. rewrite Hu. cbn.
      by rewrite Hc.
Qed.

Lemma bind_all_spec (cycles : list (option Z)) (w : World) (c : Z) :
  head (available w) = Some c ->
  ∃ w',
    bind_all cycles w = (replicate (length cycles) (Ok c), w')
    ∧ channel_servos w' = channel_servos w
    ∧ reserved_channels (config w') = reserved_channels (config w)
    ∧ (∀ k, dict_get k (update_channels w')
            = if bool_decide (k ∈ cycles) then Some c
              else dict_get k (update_channels w)).
Proof.
  revert w. induction cycles as [|u cycles IH]; intros w Hc.
  - exists w. split; [done|]. split; [done|]. split; [done|]. intros k.
    rewrite bool_decide_eq_false_2; [done | apply not_elem_of_nil].
  - cbn [bind_all]. rewrite new_dma_channel_auto.
    destruct (after_warning_fields u w) as (Hu & Hs & Hcfg & _).
    destruct (available w) as [|c' rest] eqn:Hav; [done|].
    injection Hc as ->.
    set (w1 := set_update_channels (dict_set u c) (after_warning u w)).
    destruct (IH w1) as (w' & -> & Hs' & Hr' & Hget).
    { rewrite (available_same w w1), Hav; [done | done |].
      cbn. by rewrite Hcfg. }
    exists w'. split; [done|]. split; [by rewrite Hs'|].
    split; [rewrite Hr'; cbn; by rewrite Hcfg|].
    intros k. rewrite Hget. cbn. rewrite Hu.
    destruct (decide (k ∈ cycles)) as [Hin|Hin].
    + rewrite !bool_decide_eq_true_2; [done | by right | done].
    + rewrite (bool_decide_eq_false_2 (k ∈ cycles)) by done.
      destruct (decide (k = u)) as [->|Hne].
      * rewrite dict_get_set_eq, bool_decide_eq_true_2; [done | by left].
      * rewrite dict_get_set_ne by done.
        rewrite bool_decide_eq_false_2; [done|].
        by intros [?|?]%elem_of_cons.
Qed.

(** X9: [new_dma_channel] alone uses nothing up.  Called without explicit
    channel for any series of update cycles, in a state with a free id, it
    returns the same id every time, the lowest free one: it records no
    servo channel, so the id stays free and all the cycles end up bound to
    that one channel. *)
Theorem new_dma_channel_shares_one_id (cycles : list (option Z))
    (w : World) (c : Z) :
  head (available w) = Some c ->
  ∃ w',
    bind_all cycles w = (replicate (length cycles) (Ok c), w')
    ∧ (∀ k, k ∈ cycles -> dict_get k (update_channels w') = Some c)
    ∧ channel_servos w' = channel_servos w
    ∧ head (available w') = Some c.
Proof.
  intros Hc. destruct (bind_all_spec cycles w c Hc)
    as (w' & Hall & Hs & Hr & Hget).
  exists w'. split; [done|]. split.
  - intros k Hk. by rewrite Hget, bool_decide_eq_true_2.
  - split; [done|]. by rewrite (available_same w w').
Qed.

Lemma new_servo_channel_explicit (u : option Z) (c : Z) (w : World) :
  new_servo_channel u (Some c) w
  = (Ok (mkPWMServo c u),
     set_channel_servos <[c := mkPWMServo c u]>
       (set_update_channels (dict_set u c) (after_warning u w))).
Proof.
  unfold new_servo_channel, bind. by rewrite new_dma_channel_explicit.
Qed.

(** X10: [new_servo_channel] with an explicit channel always succeeds and
    checks nothing: whatever the id, reserved, in use or outside [0,15), it
    binds the update cycle to it and replaces the servo channel stored for
    it, leaving the other cycles and the other servo channels alone; a
    following [get_servo_channel] for the cycle returns the new servo
    channel; and nothing is given back, so the id the cycle had before
    stays in use. *)
Theorem new_servo_channel_rebinds (u c : Z) (w : World) :
  ∃ w',
    new_servo_channel (Some u) (Some c) w
    = (Ok (mkPWMServo c (Some u)), w')
    ∧ dict_get (Some u) (update_channels w') = Some c
    ∧ channel_servos w' !! c = Some (mkPWMServo c (Some u))
    ∧ get_servo_channel (Some u) w' = (Ok (mkPWMServo c (Some u)), w')
    ∧ (∀ k, k ≠ Some u ->
            dict_get k (update_channels w')
            = dict_get k (update_channels w))
    ∧ (∀ c', c' ≠ c -> channel_servos w' !! c' = channel_servos w !! c')
    ∧ (∀ x, free w' x -> free w x)
    ∧ config w' = config w.
Proof.
  eexists. split; [apply new_servo_channel_explicit|].
  destruct (after_warning_fields (Some u) w) as (Hu & Hs & Hcfg & _).
  cbn. rewrite dict_get_set_eq, lookup_insert_eq, Hu, Hs, Hcfg.
  split; [done|]. split; [done|]. split.
  { rewrite get_servo_channel_eq. unfold bound_servo_channel. cbn.
    rewrite dict_get_set_eq. cbn. by rewrite lookup_insert_eq. }
  split; [by intros k Hk; apply dict_get_set_ne|].
  split; [by intros c' Hc'; apply lookup_insert_ne|].
  split; [|done].
  unfold free. cbn. rewrite Hs, Hcfg. intros x (Hx & Hxr & Hxs).
  by apply lookup_insert_None in Hxs as [Hxs _].
Qed.

(** X11: in a reachable state the inconsistency error of
    [get_servo_channel] never reports a disagreement of the two
    dictionaries: it is raised exactly for an update cycle that is not
    bound at all and whose number is the id of an allocated servo channel,
    hence a number of [0,15); the world is unchanged; and the call without
    update cycle never raises it. *)
Theorem inconsistency_only_for_small_cycles (w : World) (u : Z) :
  reachable w ->
  (fst (get_servo_channel (Some u) w)
   = Raise (ChannelBindingInconsistency (Some u))
   <-> dict_get (Some u) (update_channels w) = None
       ∧ is_Some (channel_servos w !! u))
  ∧ (fst (get_servo_channel (Some u) w)
     = Raise (ChannelBindingInconsistency (Some u)) ->
     0 <= u < 15 ∧ snd (get_servo_channel (Some u) w) = w)
  ∧ (∀ k, fst (get_servo_channel None w)
          ≠ Raise (ChannelBindingInconsistency k)).
Proof.
  intros Hw. destruct (reachable_consistent w Hw) as [H1 _ _ _].
  pose proof (reachable_servo_ids w Hw) as Hids.
  assert (∀ v k, fst (new_servo_channel v None w)
                 ≠ Raise (ChannelBindingInconsistency k)) as Hnew.
  { intros v k. rewrite new_servo_channel_auto.
    by destruct (available w). }
  rewrite !get_servo_channel_eq.
  split; [|split].
  - unfold bound_servo_channel. cbn.
    destruct (dict_get (Some u) (update_channels w)) as [c|] eqn:Hu; cbn.
    + destruct (H1 u c Hu) as [ch ->]. cbn. split; [done | by intros [? _]].
    + case_bool_decide as Hs; cbn.
      * split; [by intros ?%Hnew|]. intros [_ [ch Hch]]. congruence.
      * split; [|done]. intros _. split; [done|].
        by destruct (channel_servos w !! u); [eexists|].
  - destruct (bound_servo_channel (Some u) w); [done|].
    case_bool_decide as Hs; [by intros ?%Hnew|]. intros _. split; [|done].
    apply Hids. by destruct (channel_servos w !! u); [eexists|].
  - intros k. destruct (bound_servo_channel None w); [done | apply Hnew].
Qed.

(** ** The LED's pulse *)

Lemma LED_update_eq (self : obj) (trace : list pwm_call) :
  LED_update self trace
  = match self !! "channel" with
    | None => (Raise (NoAttribute "channel"), trace)
    | Some channel =>
      match get_channel_subcycle_time_us channel with
      | Raise e => (Raise e, trace)
      | Ok subcycle_time =>
        match self !! "brightness" with
        | None => (Raise (NoAttribute "brightness"), trace)
        | Some b =>
          match as_num b with
          | None => (Raise BadOperand, trace)
          | Some brightness =>
            if Qeq_bool pulse_incr_us 0 then (Raise ZeroDivision, trace)
            else
              match self !! "pin" with
              | None => (Raise (NoAttribute "pin"), trace)
              | Some pin =>
                  (Ok tt,
                   trace ++
                   [PWM_clear_channel_gpio channel pin;
                    PWM_add_channel_pulse channel pin 0
                      (brightness / 100 * subcycle_time / pulse_incr_us)])
              end
          end
        end
      end
    end.
Proof.
  unfold LED_update, attr_of, getattr, bind, lift, num, py_truediv, ret,
    raise, modify.
  destruct (self !! "channel") as [channel|]; cbn; [|done].
  destruct (get_channel_subcycle_time_us channel) as [st|e]; cbn; [|done].
  destruct (self !! "brightness") as [b|]; cbn; [|done].
  destruct (as_num b) as [q|]; cbn; [|done].
  change (Qeq_bool 100 0) with false; cbn iota.
  destruct (Qeq_bool pulse_incr_us 0); cbn; [done|].
  destruct (self !! "pin") as [pin|]; cbn; [|done].
  by rewrite <- app_assoc.
Qed.


Lemma LED_constructed (name pin channel : value) :
  construct (LED__init__ name pin channel)
  = Ok (<["brightness" := VInt 0]>
          (<["channel" := channel]>
             (<["pin" := pin]> (<["name" := name]> ∅)))).
Proof.
  unfold construct, LED__init__, bind.
  by rewrite !setattr_instance.
Qed.

(** Setting the brightness leaves the LED's channel and pin alone, and
    the brightness stays a number. *)
Lemma LED_sets_keep (channel pin : value) (sets : list Q) (self : obj) :
  self !! "channel" = Some channel -> self !! "pin" = Some pin ->
  (∃ b q, self !! "brightness" = Some b ∧ as_num b = Some q) ->
  run_calls LED_set sets self !! "channel" = Some channel
  ∧ run_calls LED_set sets self !! "pin" = Some pin
  ∧ ∃ b q, run_calls LED_set sets self !! "brightness" = Some b
           ∧ as_num b = Some q.
Proof.
  revert self. induction sets as [|v sets IH]; intros self Hc Hp Hb;
    [done|].
  cbn [run_calls]. rewrite LED_set_outcome.
  destruct (Qlt_bool 0 v && Qlt_bool v 100); cbn [snd]; [|by apply IH].
  apply IH.
  - by rewrite lookup_insert_ne.
  - by rewrite lookup_insert_ne.
  - exists (VNum v), v. by rewrite lookup_insert_eq.
Qed.

(** X13: an LED keeps addressing the channel and pin it was built with.
    For an LED built by [LED(name, pin, channel)], after any series of
    [set] calls, accepted or refused, [update] makes its two driver calls,
    [clear_channel_gpio] and [add_channel_pulse] at offset 0, on that
    channel and that pin, whenever the driver reports a subcycle time and
    a pulse increment that is not zero.  Before any [set] the brightness is
    0 and so is the width it programs: a new LED is off. *)
Theorem LED_addresses_its_pin (name pin channel : value) (sets : list Q)
    (subcycle_time : Q) (trace : list pwm_call) :
  get_channel_subcycle_time_us channel = Ok subcycle_time ->
  ¬ (pulse_incr_us == 0)%Q ->
  ∃ led,
    construct (LED__init__ name pin channel) = Ok led
    ∧ (∃ width,
         LED_update (run_calls LED_set sets led) trace
         = (Ok tt,
            trace ++ [PWM_clear_channel_gpio channel pin;
                      PWM_add_channel_pulse channel pin 0 width]))
    ∧ (∃ width0,
         LED_update led trace
         = (Ok tt,
            trace ++ [PWM_clear_channel_gpio channel pin;
                      PWM_add_channel_pulse channel pin 0 width0])
         ∧ (width0 == 0)%Q).
Proof.
  intros Hst Hg.
  assert (Qeq_bool pulse_incr_us 0 = false) as Hnz.
  { apply not_true_iff_false. intros H. by apply Qeq_bool_iff in H. }
  set (led := <["brightness" := VInt 0]>
                (<["channel" := channel]>
                   (<["pin" := pin]> (<["name" := name]> (∅ : obj))))).
  assert (led !! "channel" = Some channel) as Hc
    by (subst led; by rewrite lookup_insert_ne, lookup_insert_eq by done).
  assert (led !! "pin" = Some pin) as Hp
    by (subst led; by rewrite !lookup_insert_ne, lookup_insert_eq by done).
  assert (led !! "brightness" = Some (VInt 0)) as Hb
    by (by subst led; rewrite lookup_insert_eq).
  exists led. split; [apply LED_constructed|].
  split.
  - destruct (LED_sets_keep channel pin sets led Hc Hp)
      as (Hc' & Hp' & b & q & Hb' & Hq); [by exists (VInt 0), 0%Q|].
    eexists. by rewrite LED_update_eq, Hc', Hst, Hb', Hq, Hnz, Hp'.
  - eexists. split.
    + rewrite LED_update_eq, Hc, Hst, Hb. cbn [as_num].
      by rewrite Hnz, Hp.
    + cbn. field. exact Hg.
Qed.

(** ** The configuration file *)

Lemma py_split_nonempty (sep : ascii) (s : string) : py_split sep s ≠ [].
Proof.
  destruct s as [|c s]; cbn; [done|].
  case_bool_decide; [done|]. by destruct (py_split sep s).
Qed.

Lemma py_split_app (sep : ascii) (a b : string) :
  py_split sep (a +:+ String sep b) = py_split sep a ++ py_split sep b.
Proof.
  induction a as [|c a IH]; simpl.
  - by rewrite bool_decide_eq_true_2.
  - case_bool_decide; [by rewrite IH|].
    rewrite IH. pose proof (py_split_nonempty sep a).
    by destruct (py_split sep a).
Qed.

Lemma used_pins_entries_app (l1 l2 : list string) (d : gmap Z string) :
  used_pins_entries (l1 ++ l2) d
  = match used_pins_entries l1 d with
    | inl e => inl e
    | inr d' => used_pins_entries l2 d'
    end.
Proof.
  revert d. induction l1 as [|x l1 IH]; intros d; cbn; [done|].
  case_bool_decide; [|apply IH].
  destruct (py_split ":" x !! 0%nat) as [first|]; [|done].
  destruct (py_int first) as [key|]; [|done].
  destruct (py_split ":" x !! 1%nat) as [comment|]; [|done].
  apply IH.
Qed.

Lemma used_pins_entries_ok (fields : list string) (d d' : gmap Z string) :
  used_pins_entries fields d = inr d' ->
  (∀ x, x ∈ fields -> x ≠ EmptyString ->
        ∃ pin comment, field_entry x pin comment ∧ pin ∈ dom d')
  ∧ dom d ⊆ dom d'
  ∧ (∀ pin comment,
       d' !! pin = Some comment ->
       d !! pin = Some comment
       ∨ ∃ x, x ∈ fields ∧ field_entry x pin comment).
Proof.
  revert d. induction fields as [|x fields IH]; intros d; cbn.
  - intros [= <-]. split; [by intros x Hx%not_elem_of_nil|].
    split; [done|]. intros pin comment Hp. by left.
  - case_bool_decide as Hx.
    + destruct (py_split ":" x) as [|first [|comment rest]] eqn:Hs;
        cbn; [done| |].
      { by destruct (py_int first). }
      destruct (py_int first) as [key|] eqn:Hk; [|done].
      intros (Hin & Hdom & Hout)%IH.
      assert (field_entry x key comment) as Hf.
      { split; [done|]. by exists first, rest. }
      split; [|split].
      * intros y [->|Hy]%elem_of_cons Hne; [|by apply Hin].
        exists key, comment. split; [done|].
        apply Hdom. rewrite dom_insert. apply elem_of_union_l.
        by apply elem_of_singleton.
      * intros p Hp. apply Hdom. rewrite dom_insert.
        by apply elem_of_union_r.
      * intros pin c Hp. destruct (Hout pin c Hp) as [Hd|(y & Hy & Hfy)].
        -- destruct (decide (key = pin)) as [->|Hne].
           ++ rewrite lookup_insert_eq in Hd. injection Hd as <-.
              right. exists x. split; [apply list_elem_of_here | done].
           ++ rewrite lookup_insert_ne in Hd by done. by left.
        -- right. exists y. split; [by apply list_elem_of_further | done].
    + intros (Hin & Hdom & Hout)%IH. split; [|split; [done|]].
      * intros y [->|Hy]%elem_of_cons Hne; [done | by apply Hin].
      * intros pin c Hp. destruct (Hout pin c Hp) as [Hd|(y & Hy & Hfy)];
          [by left|].
        right. exists y. split; [by apply list_elem_of_further | done].
Qed.

Lemma reserved_entries_ok (fields : list string) (l l' : list Z) :
  reserved_entries fields l = inr l' ->
  ∃ ids, l' = l ++ ids
         ∧ Forall2 (fun x id => py_int x = Some id)
             (filter (fun x => x ≠ EmptyString) fields) ids.
Proof.
  revert l. induction fields as [|x fields IH]; intros l; cbn.
  - intros [= <-]. exists []. by rewrite app_nil_r.
  - case_bool_decide as Hx.
    + destruct (decide (x ≠ EmptyString)) as [_|Hn]; [|done].
      destruct (py_int x) as [id|] eqn:Hid; [|done].
      intros (ids & -> & Hall)%IH. exists (id :: ids).
      split; [by rewrite <- app_assoc | by constructor].
    + destruct (decide (x ≠ EmptyString)) as [Hn|_]; [done|].
      apply IH.
Qed.

Lemma get_vars_inr (used_text reserved_text echo_text : string)
    (cfg : Config) :
  get_vars used_text reserved_text echo_text = inr cfg ->
  used_pins_entries (py_split "," used_text) ∅ = inr (used_pins cfg)
  ∧ reserved_entries (py_split "," reserved_text) []
    = inr (reserved_channels cfg)
  ∧ echo cfg = bool_decide (echo_text ≠ EmptyString).
Proof.
  unfold get_vars.
  destruct (used_pins_entries _ ∅) as [e|pins]; [done|].
  destruct (reserved_entries _ []) as [e|reserved]; [done|].
  intros [= <-]. cbn. by destruct echo_text.
Qed.

(** X14: what [Config.get_vars] keeps of the option values when it returns.
    Both lists are split at the commas and empty fields are skipped.  Every
    other field of [used_pins] has a second part after its first colon and a
    first part that [int] accepts, and the pin is in the claim table; the
    table holds nothing else, every entry being the pin and the second part
    of some field (parts after a second colon are dropped).  The reserved
    channel ids are the fields of [reserved_channels] read by [int], in the
    order of the text.  [echo] is on exactly when its text is not empty, so
    also for the text [False]. *)
Theorem get_vars_keeps (used_text reserved_text echo_text : string)
    (cfg : Config) :
  get_vars used_text reserved_text echo_text = inr cfg ->
  (∀ x, x ∈ py_split "," used_text -> x ≠ EmptyString ->
        ∃ pin comment,
          field_entry x pin comment ∧ pin ∈ dom (used_pins cfg))
  ∧ (∀ pin comment,
       used_pins cfg !! pin = Some comment ->
       ∃ x, x ∈ py_split "," used_text ∧ field_entry x pin comment)
  ∧ Forall2 (fun x id => py_int x = Some id)
      (filter (fun x => x ≠ EmptyString) (py_split "," reserved_text))
      (reserved_channels cfg)
  ∧ echo cfg = bool_decide (echo_text ≠ EmptyString).
Proof.
  intros (Hpins & Hres & Hecho)%get_vars_inr.
  apply used_pins_entries_ok in Hpins as (Hin & _ & Hout).
  apply reserved_entries_ok in Hres as (ids & Hids & Hall).
  cbn in Hids. subst ids.
  split; [done|]. split; [|done].
  intros pin comment Hp. destruct (Hout pin comment Hp) as [Hd|Hx];
    [|done].
  by rewrite lookup_empty in Hd.
Qed.

(** X15: a further field at the end of the [used_pins] text is read last,
    so it wins.  When [get_vars] accepts a text, it accepts the text with
    [,x] appended for a field [x] without comma that reads as the entry
    [(pin, comment)], and the result differs only in the claim table, where
    [pin] now carries [comment], whatever an earlier field said about
    [pin]. *)
Theorem get_vars_later_field_wins
    (used_text reserved_text echo_text x comment : string) (pin : Z)
    (cfg : Config) :
  get_vars used_text reserved_text echo_text = inr cfg ->
  py_split "," x = [x] -> field_entry x pin comment ->
  get_vars (used_text +:+ String "," x) reserved_text echo_text
  = inr (mkConfig (<[pin := comment]> (used_pins cfg)) (echo cfg)
           (reserved_channels cfg)).
Proof.
  unfold get_vars. rewrite py_split_app, used_pins_entries_app.
  destruct (used_pins_entries _ ∅) as [e|pins]; [done|].
  destruct (reserved_entries _ []) as [e|reserved]; [done|].
  intros [= <-] -> (Hne & first & rest & Hs & Hk). cbn.
  rewrite bool_decide_eq_true_2 by done.
  by rewrite Hs; cbn; rewrite Hk.
Qed.

(** X16: the controller built on a configuration that [get_vars] returned
    honours what the file lists.  A pin named by a field of [used_pins] is
    refused by [claim_pin] with nothing changed, a channel id named by a
    field of [reserved_channels] is never the answer of [get_dma_channel],
    and with a non-empty [echo] text the release of a pin that is in no
    field emits the diagnostic. *)
Theorem controller_honours_config
    (used_text reserved_text echo_text : string) (cfg : Config) :
  get_vars used_text reserved_text echo_text = inr cfg ->
  let w := OutputController__init__ cfg in
  (∀ x pin comment io_type comment',
     x ∈ py_split "," used_text -> field_entry x pin comment ->
     claim_pin pin VConfig io_type comment' w
     = (Raise (PinAlreadyClaimed pin), w))
  ∧ (∀ x id,
       x ∈ py_split "," reserved_text -> x ≠ EmptyString ->
       py_int x = Some id ->
       fst (get_dma_channel w) ≠ Ok (Some id))
  ∧ (echo_text ≠ EmptyString ->
     ∀ pin, pin ∉ dom (used_pins cfg) ->
            release_pin pin VConfig w = (Ok tt, warn ReleaseUnclaimedPin w)).
Proof.
  intros (Hpins & Hres & Hecho)%get_vars_inr w.
  apply used_pins_entries_ok in Hpins as (Hin & _ & _).
  apply reserved_entries_ok in Hres as (ids & Hids & Hall).
  cbn in Hids. subst ids.
  split; [|split].
  - intros x pin comment io_type comment' Hx Hf.
    destruct (Hin x Hx (proj1 Hf)) as (pin' & c' & Hf' & Hdom).
    assert (pin' = pin) as ->.
    { destruct Hf as (_ & f1 & r1 & Hs1 & Hk1).
      destruct Hf' as (_ & f2 & r2 & Hs2 & Hk2). congruence. }
    rewrite claim_pin_eq. by rewrite bool_decide_eq_true_2.
  - intros x id Hx Hne Hid. rewrite get_dma_channel_eq. cbn.
    intros [= Hd]. apply available_head in Hd as [(_ & Hr & _) _].
    apply Hr. cbn.
    assert (x ∈ filter (fun x => x ≠ EmptyString)
                  (py_split "," reserved_text)) as Hxf
      by (by apply list_elem_of_filter).
    destruct (proj1 (list_elem_of_lookup _ _) Hxf) as [i Hi].
    destruct (Forall2_lookup_l _ _ _ _ _ Hall Hi) as (id' & Hi' & Hid').
    assert (id' = id) as -> by congruence.
    by apply (list_elem_of_lookup_2 _ i).
  - intros Hne pin Hp. rewrite release_pin_eq.
    rewrite bool_decide_eq_false_2 by done.
    cbn. rewrite Hecho. by rewrite bool_decide_eq_true_2.
Qed.

End Program.

(** * The properties at concrete inputs

    The driver's constants are those of RPIO: [RPIO.IN = 1], [RPIO.OUT = 0],
    [RPIO.BOARD = 10], and a pulse increment of 10 microseconds. *)

(** C5 at pin 11: the first claim on a fresh controller succeeds and the
    second one is refused. *)
Lemma claim_pin_twice :
  fst (claim_pin 1 0 11 VConfig (VInt 0) "status led" (fresh 10 [])) = Ok tt
  ∧ fst (claim_pin 1 0 11 VConfig (VInt 0) "second use"
           (snd (claim_pin 1 0 11 VConfig (VInt 0) "status led"
                   (fresh 10 []))))
    = Raise (PinAlreadyClaimed 11).
Proof.
  destruct (proj2 (claim_pin_spec 1 0 11 (VInt 0) "status led" (fresh 10 [])))
    as (w' & Hclaim & _ & Hpin & _).
  { apply not_elem_of_dom. reflexivity. }
  rewrite Hclaim. split; [reflexivity|]. cbn [snd].
  destruct (proj1 (claim_pin_spec 1 0 11 (VInt 0) "second use" w'))
    as [Hagain _].
  { apply elem_of_dom. rewrite Hpin. eexists. reflexivity. }
  rewrite Hagain. reflexivity.
Defined.

(** C1 as stated fails: on a fresh controller with nothing reserved,
    [new_led] takes channel 0 for the key [None], and [new_servo] with
    update cycle 20000 then takes channel 0 again, so the two allocations
    do not yield distinct ids and channel 0 is bound to two keys of
    [update_channels] at once. *)
Lemma led_and_servo_share_channel :
  let led := new_led 1 0 "status" 11 (fresh 10 []) in
  let servo :=
    new_servo 1 0 "pan" 12 (Some 20000) 90 [1; 2]%Q false (snd led) in
  reachable 1 0 10 (snd servo)
  ∧ update_channels (snd led) = [(None, 0)]
  ∧ fst (get_servo_channel (Some 20000) (snd led))
    = Ok (mkPWMServo 0 (Some 20000))
  ∧ update_channels (snd servo) = [(None, 0); (Some 20000, 0)]
  ∧ ¬ (∀ w : World,
         reachable 1 0 10 w ->
         ∀ (k1 k2 : option Z) (c : Z),
           dict_get k1 (update_channels w) = Some c ->
           dict_get k2 (update_channels w) = Some c -> k1 = k2).
Proof.
  cbv zeta.
  assert (reachable 1 0 10
            (snd (new_servo 1 0 "pan" 12 (Some 20000) 90 [1; 2]%Q false
                    (snd (new_led 1 0 "status" 11 (fresh 10 []))))))
    as Hreach
    by apply reachable_new_servo, reachable_new_led, reachable_init.
  split; [exact Hreach|].
  split; [by vm_compute|]. split; [by vm_compute|].
  assert (update_channels
            (snd (new_servo 1 0 "pan" 12 (Some 20000) 90 [1; 2]%Q false
                    (snd (new_led 1 0 "status" 11 (fresh 10 [])))))
          = [(None, 0); (Some 20000, 0)]) as Hbound by (by vm_compute).
  split; [exact Hbound|].
  intros Hclaim.
  specialize (Hclaim _ Hreach None (Some 20000) 0).
  rewrite Hbound in Hclaim. by specialize (Hclaim eq_refl eq_refl).
Qed.

(** C1, amended, at the state reached by [new_led] and then [new_servo]
    with ids 0 and 1 reserved, and at the fresh controller before them. *)
Lemma reachable_channel_bindings_at_led_then_servo :
  let w0 := fresh 10 [0; 1] in
  let w :=
    snd (new_servo 1 0 "pan" 12 (Some 20000) 90 [1; 2]%Q false
           (snd (new_led 1 0 "status" 11 w0))) in
  ((∀ (u1 u2 c : Z),
      dict_get (Some u1) (update_channels w) = Some c ->
      dict_get (Some u2) (update_channels w) = Some c -> u1 = u2)
   ∧ (∀ (k : option Z) (c : Z),
        dict_get k (update_channels w) = Some c ->
        0 <= c < 15 ∧ c ∉ reserved_channels (config w))
   ∧ (∀ (c : Z),
        fst (get_dma_channel w) = Ok (Some c) ->
        0 <= c < 15 ∧ (c ∉ reserved_channels (config w))
        ∧ channel_servos w !! c = None))
  ∧ dict_get None (update_channels (snd (new_led 1 0 "status" 11 w0)))
    = Some 2
  ∧ fst (get_servo_channel (Some 20000) (snd (new_led 1 0 "status" 11 w0)))
    = Ok (mkPWMServo 2 (Some 20000)).
Proof.
  cbv zeta. split.
  - apply (proj1 (reachable_channel_bindings 1 0 10)).
    apply reachable_new_servo, reachable_new_led, reachable_init.
  - destruct (proj2 (reachable_channel_bindings 1 0 10)
                (example_config [0; 1]) 2 "status" 11 20000)
      as (Hled & Hservo & _); [by vm_compute|].
    split; [exact Hled | exact Hservo].
Defined.

(** C2 at hand: the lowest free id of a fresh controller with ids 0 and 1
    reserved is 2. *)
Lemma get_dma_channel_skips_reserved :
  (free (fresh 10 [0; 1]) 2 ∧ ∀ x, free (fresh 10 [0; 1]) x -> 2 <= x)
  ∧ dict_get (Some 20000) (update_channels (fresh 10 [0; 1])) ≠ Some 2.
Proof.
  destruct (get_dma_channel_lowest_free 1 0 10) as (Hlow & _ & Hfree & _).
  split.
  - apply (Hlow (fresh 10 [0; 1]) 2). by vm_compute.
  - apply Hfree; [apply reachable_init | by vm_compute].
Defined.

(** C2 as stated fails: the id picked need not be out of use.  On a fresh
    controller with nothing reserved, [new_led] binds channel 0 under the
    key [None]; in that reachable state channel 0 is in use by the LED and
    [get_dma_channel] picks it again, so the servo channel allocated next
    is on channel 0 too. *)
Lemma led_channel_picked_again :
  let w := snd (new_led 1 0 "status" 11 (fresh 10 [])) in
  reachable 1 0 10 w
  ∧ dict_get None (update_channels w) = Some 0
  ∧ fst (get_dma_channel w) = Ok (Some 0)
  ∧ fst (new_servo_channel (Some 20000) None w)
    = Ok (mkPWMServo 0 (Some 20000))
  ∧ ¬ (∀ w' : World,
         reachable 1 0 10 w' ->
         ∀ (c : Z) (k : option Z),
           fst (get_dma_channel w') = Ok (Some c) ->
           dict_get k (update_channels w') ≠ Some c).
Proof.
  cbv zeta.
  assert (reachable 1 0 10 (snd (new_led 1 0 "status" 11 (fresh 10 []))))
    as Hreach by apply reachable_new_led, reachable_init.
  assert (dict_get None
            (update_channels (snd (new_led 1 0 "status" 11 (fresh 10 []))))
          = Some 0) as Hbound by (by vm_compute).
  assert (fst (get_dma_channel (snd (new_led 1 0 "status" 11 (fresh 10 []))))
          = Ok (Some 0)) as Hpick by (by vm_compute).
  split; [exact Hreach|]. split; [exact Hbound|]. split; [exact Hpick|].
  split; [by vm_compute|].
  intros Hclaim. exact (Hclaim _ Hreach 0 None Hpick Hbound).
Qed.

(** C3 after one allocation for the cycle 20000: asking again returns the
    servo channel of id 0 and the world is unchanged. *)
Lemma get_servo_channel_again :
  let w := snd (get_servo_channel (Some 20000) (fresh 10 [])) in
  get_servo_channel (Some 20000) w = (Ok (mkPWMServo 0 (Some 20000)), w)
  ∧ ∃ ch, channel_servos w !! 0 = Some ch
          ∧ dma_channel ch = 0
          ∧ get_servo_channel (Some 20000) w = (Ok ch, w)
          ∧ available (snd (get_servo_channel (Some 20000) w)) = available w.
Proof.
  cbv zeta. split.
  - apply (proj1 (get_servo_channel_bound 1 0 10) _ 20000 0);
      by vm_compute.
  - apply (proj2 (get_servo_channel_bound 1 0 10) _ 20000 0);
      [apply reachable_get_servo_channel, reachable_init | by vm_compute].
Defined.

(** C4 with ids 0 and 1 reserved and the cycles 1000, 2000, ..., 13000:
    the 13 allocations take ids 2 to 14, and the one for 14000 fails,
    whether made by [new_servo_channel] or through [get_servo_channel]. *)
Lemma channel_exhaustion_reserved_0_1 :
  let cycles := (fun n => 1000 * n) <$> seqZ 1 13 in
  let w := OutputController__init__ 10 (mkConfig ∅ false [0; 1]) in
  (∃ w',
     allocate_all (Some <$> cycles) w
     = (Ok <$> zip_with mkPWMServo
                 (filter (fun x => x ∉ [0; 1]) (seqZ 0 15))
                 (Some <$> cycles), w')
     ∧ fst (new_servo_channel (Some 14000) None w') = Raise NoChannelAvailable
     ∧ class_of NoChannelAvailable = RuntimeError)
  ∧ (∃ w',
       request_all cycles w
       = (Ok <$> zip_with mkPWMServo
                   (filter (fun x => x ∉ [0; 1]) (seqZ 0 15))
                   (Some <$> cycles), w')
       ∧ fst (get_servo_channel (Some 14000) w') = Raise NoChannelAvailable).
Proof.
  cbv zeta. split.
  - apply (proj1 (channel_exhaustion 10) ∅ false [0; 1]); by vm_compute.
  - apply (proj1 (proj2 (proj2 (channel_exhaustion 10))) ∅ false [0; 1]);
      [by vm_compute | by vm_compute | |].
    + apply (bool_decide_unpack _). by vm_compute.
    + apply Forall_forall, (bool_decide_unpack _). by vm_compute.
Defined.

(** C4 as stated fails.  With ids 0 and 1 reserved, 14 calls of
    [new_dma_channel] for the distinct cycles 1000, ..., 14000 all return
    channel 2, the 14th like the first.  Requested through
    [get_servo_channel], the second of the distinct cycles 20000 and 2 is
    refused with the inconsistency error while ids are free.  And with
    only id 14 unreserved and bound by [new_led], no id is both unreserved
    and unbound, yet the allocation of a servo channel succeeds. *)
Lemma new_dma_channel_never_exhausts :
  let cycles := Some <$> ((fun n => 1000 * n) <$> seqZ 1 14) in
  let w := fresh 10 [0; 1] in
  NoDup cycles
  ∧ fst (bind_all cycles w) = replicate 14 (Ok 2)
  ∧ fst (request_all [20000; 2] w)
    = [Ok (mkPWMServo 2 (Some 20000));
       Raise (ChannelBindingInconsistency (Some 2))]
  ∧ (let w1 := snd (new_led 1 0 "status" 11 (fresh 10 (seqZ 0 14))) in
     dict_get None (update_channels w1) = Some 14
     ∧ (∀ x, 0 <= x < 15 -> x ∉ reserved_channels (config w1) -> x = 14)
     ∧ fst (new_servo_channel (Some 20000) None w1)
       = Ok (mkPWMServo 14 (Some 20000)))
  ∧ ¬ (∀ (cycles : list (option Z)) (last : option Z),
         length cycles = 13%nat -> NoDup (cycles ++ [last]) ->
         fst (new_dma_channel last None (snd (bind_all cycles w)))
         = Raise NoChannelAvailable).
Proof.
  cbv zeta.
  split; [apply (bool_decide_unpack _); by vm_compute|].
  split; [by vm_compute|]. split; [by vm_compute|]. split.
  - split; [by vm_compute|]. split; [|by vm_compute].
    intros x Hx Hfree. destruct (decide (x = 14)) as [|Hne]; [done|].
    exfalso. apply Hfree.
    change (x ∈ seqZ 0 14). apply elem_of_seqZ. lia.
  - intros Hclaim.
    specialize (Hclaim (Some <$> ((fun n => 1000 * n) <$> seqZ 1 13))
                  (Some 14000) eq_refl).
    assert (fst (new_dma_channel (Some 14000) None
                   (snd (bind_all
                           (Some <$> ((fun n => 1000 * n) <$> seqZ 1 13))
                           (fresh 10 [0; 1]))))
            = Ok 2) as Hok by (by vm_compute).
    rewrite Hok in Hclaim. discriminate Hclaim.
    apply (bool_decide_unpack _). by vm_compute.
Qed.

(** C8 for a servo of range 90: 45 is accepted by the validation, 0 and
    90 are refused. *)
Lemma set_validation_range_90 :
  let self : obj := {["range" := VNum 90]} in
  (fst (Servo_set 10 1000 45 self) = Raise InvalidAngle
   <-> ¬ ((0 < 45)%Q ∧ (45 < 90)%Q))
  ∧ Servo_set 10 1000 0 self = (Raise InvalidAngle, self)
  ∧ Servo_set 10 1000 90 self = (Raise InvalidAngle, self).
Proof.
  cbv zeta.
  destruct (proj1 (set_validation 10) 1000%nat 45%Q 90%Q
              {["range" := VNum 90]})
    as (Hiff & _ & _ & Hzero & Hrange); [by vm_compute|].
  split; [exact Hiff|]. split; [exact Hzero | exact Hrange].
Defined.

(** C10 as stated fails for a continuous servo: its initial speed 0 is
    inside (-1, 1), [set(0)] is accepted, and after [set(0.5)] and [set(0)],
    both accepted, the stored speed is 0 again. *)
Lemma continuous_servo_returns_to_zero :
  let self : obj := <["speed" := VInt 0]> {["reverse" := VBool false]} in
  fst (ContinousServo_set 0 self) = Ok tt
  ∧ fst (ContinousServo_set (1 # 2) self) = Ok tt
  ∧ fst (ContinousServo_set 0 (snd (ContinousServo_set (1 # 2) self))) = Ok tt
  ∧ run_calls ContinousServo_call [CallSet (1 # 2); CallSet 0] self !! "speed"
    = Some (VNum 0)
  ∧ py_eq (VNum 0) (VInt 0) = true.
Proof. by vm_compute. Qed.

(** C10, amended, for a servo of range 90 standing at 45: whatever the
    calls, here two accepted ones and two refused ones, the stored angle
    stays strictly inside (0, 90). *)
Lemma stored_angle_stays_inside_range_90 :
  let self : obj := <["angle" := VNum 45]> {["range" := VNum 90]} in
  let calls :=
    [CallSet 10; CallIncrement (-10); CallIncrement 5; CallSet 0] in
  strictly_inside 0 90 "angle" (run_calls (Servo_call 10 1000) calls self)
  ∧ ∃ v : Q, run_calls (Servo_call 10 1000) calls self !! "angle"
             = Some (VNum v) ∧ ¬ (v == 0)%Q.
Proof.
  cbv zeta.
  destruct (proj1 (stored_value_stays_inside 10) 1000%nat 90%Q
              (<["angle" := VNum 45]> {["range" := VNum 90]}))
    as (_ & _ & Hcalls); [by vm_compute|].
  apply Hcalls. exists 45%Q. split; [by vm_compute|]. split; reflexivity.
Defined.

(** The guard of [get_servo_channel] looks the update cycle up among the
    channel ids: once channel 2 is allocated, a request for the cycle 2 is
    refused as an inconsistency although ids are still free. *)
Lemma get_servo_channel_cycle_taken_for_channel :
  let w := snd (get_servo_channel (Some 20) (fresh 10 [0; 1])) in
  fst (get_servo_channel (Some 2) w)
  = Raise (ChannelBindingInconsistency (Some 2))
  ∧ free w 3.
Proof.
  cbv zeta. split; [by vm_compute|].
  unfold free. apply (bool_decide_unpack _). by vm_compute.
Qed.

(** * The further properties at concrete inputs

    The subcycle time of every channel is the driver's default, 20000
    microseconds, and [int] reads plain decimal numerals. *)

(** X1 at pin 11 of a fresh controller. *)
Lemma claim_then_release_pin_11 :
  let w := fresh 10 [] in
  (11 ∉ dom (used_pins (config w)))
  ∧ ∃ w1 w2,
      claim_pin 1 0 11 VConfig (VInt 0) "status led" w = (Ok tt, w1)
      ∧ release_pin 11 VConfig w1 = (Ok tt, w2)
      ∧ config w2 = config w
      ∧ warned w2 = warned w
      ∧ rpio w2 = rpio w1
      ∧ length (rpio w1) = S (length (rpio w))
      ∧ fst (claim_pin 1 0 11 VConfig (VInt 0) "status led" w2) = Ok tt.
Proof.
  cbv zeta.
  assert (11 ∉ dom (used_pins (config (fresh 10 [])))) as Hfree
    by (apply not_elem_of_dom; reflexivity).
  split; [exact Hfree|].
  exact (claim_then_release 1 0 11 (VInt 0) "status led" (fresh 10 [])
           Hfree).
Defined.

(** X3 at pins 11 and 12 of a fresh controller. *)
Lemma claim_pin_frame_pins_11_12 :
  let w := fresh 10 [] in
  let w1 := snd (claim_pin 1 0 11 VConfig (VInt 0) "status led" w) in
  used_pins (config w1) !! 12 = None
  ∧ fst (claim_pin 1 0 12 VConfig (VInt 0) "pan" w1) = Ok tt.
Proof.
  cbv zeta.
  destruct (claim_pin_frame 1 0 11 12 (VInt 0) "status led" (fresh 10 []))
    as (Hlookup & Hresult & _); [done|].
  split.
  - rewrite Hlookup. reflexivity.
  - rewrite Hresult. reflexivity.
Defined.

(** X4 at [new_led] on a fresh controller: pin 11 stays unclaimed and the
    driver has only seen [setmode]. *)
Lemma new_led_leaves_pins_alone :
  let w' := snd (new_led 1 0 "status" 11 (fresh 10 [])) in
  used_pins (config w') = ∅ ∧ rpio w' = [RPIO_setmode 10] ∧ leds w' = ∅.
Proof.
  cbv zeta.
  destruct (interface_leaves_pins_alone 1 0 (fresh 10 [])
              (snd (new_led 1 0 "status" 11 (fresh 10 [])))
              (api_new_led 1 0 (fresh 10 []) "status" 11))
    as (Hconfig & Hrpio & _ & Hleds & _).
  rewrite Hconfig, Hrpio, Hleds. by repeat split.
Defined.

(** X5 on a fresh controller with ids 0 and 1 reserved: the failed
    [new_servo] leaves channel 2 bound to the cycle 20000. *)
Lemma new_servo_keeps_channel_2 :
  let r :=
    new_servo 1 0 "pan" 12 (Some 20000) 90 [1; 2]%Q false
      (fresh 10 [0; 1]) in
  fst r = Raise (NoAttribute "used_pins")
  ∧ dict_get (Some 20000) (update_channels (snd r)) = Some 2
  ∧ channel_servos (snd r) !! 2 = Some (mkPWMServo 2 (Some 20000))
  ∧ ¬ free (snd r) 2
  ∧ used_pins (config (snd r)) = used_pins (config (fresh 10 [0; 1])).
Proof.
  apply (new_servo_keeps_channel 1 0 "pan" 12 20000 90 [1; 2]%Q false
           (fresh 10 [0; 1]) 2); by vm_compute.
Defined.

(** X6 at [new_servo] on a fresh controller: id 0 is taken, it was the
    head of the available ids. *)
Lemma new_servo_takes_head :
  let w := fresh 10 [] in
  let w' :=
    snd (new_servo 1 0 "pan" 12 (Some 20000) 90 [1; 2]%Q false w) in
  channel_servos w ⊆ channel_servos w'
  ∧ reserved_channels (config w') = reserved_channels (config w)
  ∧ (∀ x, free w' x -> free w x)
  ∧ (available w' = available w ∨ available w' = tail (available w)).
Proof.
  cbv zeta.
  exact (channels_never_freed 1 0 (fresh 10 []) _
           (api_new_servo 1 0 (fresh 10 []) "pan" 12 (Some 20000) 90
              [1; 2]%Q false)).
Defined.

(** X7 at [new_led]: the cycle 20000, bound to channel 0, is still bound
    to it afterwards. *)
Lemma binding_survives_new_led :
  let w := snd (get_servo_channel (Some 20000) (fresh 10 [])) in
  dict_get (Some 20000) (update_channels w) = Some 0
  ∧ dict_get (Some 20000)
      (update_channels (snd (new_led 1 0 "status" 11 w))) = Some 0.
Proof.
  cbv zeta.
  assert (dict_get (Some 20000)
            (update_channels
               (snd (get_servo_channel (Some 20000) (fresh 10 []))))
          = Some 0) as Hbound by (by vm_compute).
  split; [exact Hbound|].
  apply (bindings_are_permanent 1 0 10
           (snd (get_servo_channel (Some 20000) (fresh 10 [])))).
  - apply reachable_get_servo_channel, reachable_init.
  - apply api_new_led.
  - exact Hbound.
Defined.

(** X9 with ids 0 and 1 reserved: three calls of [new_dma_channel], for
    the cycles 1000 and 2000 and for no cycle, all return channel 2. *)
Lemma new_dma_channel_returns_2_thrice :
  ∃ w',
    bind_all [Some 1000; Some 2000; None] (fresh 10 [0; 1])
    = ([Ok 2; Ok 2; Ok 2], w')
    ∧ (∀ k, k ∈ [Some 1000; Some 2000; None] ->
            dict_get k (update_channels w') = Some 2)
    ∧ channel_servos w' = channel_servos (fresh 10 [0; 1])
    ∧ head (available w') = Some 2.
Proof.
  apply (new_dma_channel_shares_one_id [Some 1000; Some 2000; None]
           (fresh 10 [0; 1]) 2).
  by vm_compute.
Defined.

(** X11 at the update cycle 0: once channel 0 is allocated, asking for
    that cycle raises the inconsistency and changes nothing. *)
Lemma get_servo_channel_cycle_0 :
  let w := snd (get_servo_channel (Some 20000) (fresh 10 [])) in
  fst (get_servo_channel (Some 0) w)
  = Raise (ChannelBindingInconsistency (Some 0))
  ∧ snd (get_servo_channel (Some 0) w) = w.
Proof.
  cbv zeta.
  destruct (inconsistency_only_for_small_cycles 1 0 10
              (snd (get_servo_channel (Some 20000) (fresh 10 []))) 0)
    as (Hiff & Hsmall & _).
  { apply reachable_get_servo_channel, reachable_init. }
  assert (fst (get_servo_channel (Some 0)
                 (snd (get_servo_channel (Some 20000) (fresh 10 []))))
          = Raise (ChannelBindingInconsistency (Some 0))) as Hraise.
  { apply Hiff. split; [by vm_compute|]. eexists. by vm_compute. }
  split; [exact Hraise|]. by apply Hsmall.
Defined.

(** X13 for the LED on pin 11 and channel 0, after [set(50)], the refused
    [set(0)] and [set(120)], and [set(7)]. *)
Lemma LED_addresses_pin_11 :
  ∃ led,
    construct (LED__init__ (VStr "status") (VInt 11) (VInt 0)) = Ok led
    ∧ (∃ width,
         LED_update 10 (fun _ => Ok 20000%Q)
           (run_calls LED_set [50; 0; 120; 7]%Q led) []
         = (Ok tt,
            [PWM_clear_channel_gpio (VInt 0) (VInt 11);
             PWM_add_channel_pulse (VInt 0) (VInt 11) 0 width]))
    ∧ (∃ width0,
         LED_update 10 (fun _ => Ok 20000%Q) led []
         = (Ok tt,
            [PWM_clear_channel_gpio (VInt 0) (VInt 11);
             PWM_add_channel_pulse (VInt 0) (VInt 11) 0 width0])
         ∧ (width0 == 0)%Q).
Proof.
  apply (LED_addresses_its_pin 10 (fun _ => Ok 20000%Q) (VStr "status")
           (VInt 11) (VInt 0) [50; 0; 120; 7]%Q 20000 []);
    [reflexivity | by vm_compute].
Defined.

(** X14 for a file with two pins, an empty field between them, the
    reserved ids 0 and 1, and the [echo] text [False]. *)
Lemma get_vars_two_pins :
  ∃ cfg,
    get_vars decimal_int "11:status led,,12:pan:spare" "0,1" "False"
    = inr cfg
    ∧ used_pins cfg = <[12 := "pan"]> (<[11 := "status led"]> ∅)
    ∧ Forall2 (fun x id => decimal_int x = Some id) ["0"; "1"]
        (reserved_channels cfg)
    ∧ echo cfg = true.
Proof.
  assert (get_vars decimal_int "11:status led,,12:pan:spare" "0,1" "False"
          = inr (mkConfig (<[12 := "pan"]> (<[11 := "status led"]> ∅))
                   true [0; 1])) as Hcfg by (by vm_compute).
  eexists. split; [exact Hcfg|].
  destruct (get_vars_keeps decimal_int _ _ _ _ Hcfg)
    as (_ & _ & Hreserved & Hecho).
  split; [reflexivity|]. split; [exact Hreserved | exact Hecho].
Defined.

(** X15 at pin 11: a second field for the pin replaces the comment of the
    first. *)
Lemma get_vars_pin_11_twice :
  ∃ cfg,
    get_vars decimal_int "11:status led,11:spare" "" "" = inr cfg
    ∧ used_pins cfg = <[11 := "spare"]> ∅.
Proof.
  eexists. split.
  - apply (get_vars_later_field_wins decimal_int "11:status led" "" ""
             "11:spare" "spare" 11 (mkConfig (<[11 := "status led"]> ∅)
                                      false []));
      [by vm_compute | by vm_compute |].
    split; [done|]. exists "11", []. by vm_compute.
  - by vm_compute.
Defined.

(** X16 for the same file: pin 12 is refused, channel 0 is not allocated,
    and releasing pin 13 emits the diagnostic. *)
Lemma controller_honours_two_pins :
  ∃ cfg,
    get_vars decimal_int "11:status led,,12:pan:spare" "0,1" "False"
    = inr cfg
    ∧ fst (claim_pin 1 0 12 VConfig (VInt 0) "tilt"
             (OutputController__init__ 10 cfg))
      = Raise (PinAlreadyClaimed 12)
    ∧ fst (get_dma_channel (OutputController__init__ 10 cfg)) ≠ Ok (Some 0)
    ∧ warned (snd (release_pin 13 VConfig (OutputController__init__ 10 cfg)))
      = [ReleaseUnclaimedPin].
Proof.
  assert (get_vars decimal_int "11:status led,,12:pan:spare" "0,1" "False"
          = inr (mkConfig (<[12 := "pan"]> (<[11 := "status led"]> ∅))
                   true [0; 1])) as Hcfg by (by vm_compute).
  eexists. split; [exact Hcfg|].
  destruct (controller_honours_config 1 0 10 decimal_int _ _ _ _ Hcfg)
    as (Hpins & Hreserved & Hecho).
  split; [|split].
  - rewrite (Hpins "12:pan:spare" 12 "pan" (VInt 0) "tilt"); [done| |].
    + apply (bool_decide_unpack _). by vm_compute.
    + split; [done|]. exists "12", ["spare"]. by vm_compute.
  - apply (Hreserved "0" 0); [|done|by vm_compute].
    apply (bool_decide_unpack _). by vm_compute.
  - rewrite Hecho; [done|done|].
    apply not_elem_of_dom. by vm_compute.
Defined.
